(** * Verification of the todo-widget MCP server (mcp-for-next.js)

    The development embeds three pieces of the repository:

    - the parts of the JavaScript string library that the code calls
      ([includes], [replace], template literals, [JSON.stringify]), over
      strings seen as sequences of UTF-16 code units;
    - the tool host of the MCP route ([app/mcp/route.ts], the second file
      of src/app/page.tsx): the in-memory collection [todos], the counter
      [nextId] and the three tool handlers [add_todo], [complete_todo] and
      [list_todos], written in state-passing style;
    - the build script ([scripts/build-widget.mjs], the first file of
      src/unnamed/part_000): [processWidgetHtml] and [buildWidget].

    Definitions come first, the statements about them follow. *)

From Stdlib Require Import Ascii String DecimalString DecimalN.
From Stdlib Require Import List NArith ZArith Bool Arith Lia Zify.
From Stdlib Require Import Sorted FinFun.
Import ListNotations.

#[local] Open Scope N_scope.
#[local] Open Scope list_scope.

(** ** JavaScript strings *)

Module JS.

(** A JavaScript string is a finite sequence of 16-bit code units. *)
Definition code_unit := N.
Definition jsstring := list code_unit.

(** A source-text literal made of ASCII characters. *)
Definition lit (s : string) : jsstring :=
  map N_of_ascii (list_ascii_of_string s).

(** The one-character string holding a double quote (U+0022). *)
Definition dquote : jsstring := [34].

(** [a === b] on two strings: same length, same code units. *)
Fixpoint strict_eq (a b : jsstring) : bool :=
  match a, b with
  | [], [] => true
  | x :: a', y :: b' => (x =? y) && strict_eq a' b'
  | _, _ => false
  end.

(** [Number::toString] at radix 10, on the non-negative integers (every
    number the program prints is a counter or a length). *)
Definition number_to_string (n : N) : jsstring :=
  lit (NilZero.string_of_uint (N.to_uint n)).

(** Does [s] start with [p]? *)
Fixpoint starts_with (p s : jsstring) : bool :=
  match p, s with
  | [], _ => true
  | _ :: _, [] => false
  | x :: p', y :: s' => (x =? y) && starts_with p' s'
  end.

(** [StringIndexOf(s, p, 0)]: the least index at which [p] occurs in [s];
    [None] stands for the result -1. *)
Fixpoint indexOf (s p : jsstring) : option nat :=
  if starts_with p s then Some 0%nat
  else match s with
       | [] => None
       | _ :: s' => option_map S (indexOf s' p)
       end.

(** The indices at which [p] occurs in [s], in increasing order, and their
    number. *)
Definition occurrences (s p : jsstring) : list nat :=
  filter (fun j => starts_with p (skipn j s)) (seq 0 (S (length s))).

Definition count_occurrences (s p : jsstring) : nat :=
  length (occurrences s p).

(** [s.includes(p)]. *)
Definition includes (s p : jsstring) : bool :=
  match indexOf s p with Some _ => true | None => false end.

(** [GetSubstitution] for a string pattern, which has no capture groups:
    in the template, [$$] stands for a dollar sign, [$&] for the matched
    text, [$`] for the text before the match and [$'] for the text after it;
    a dollar sign followed by anything else, digits included, is copied. *)
Fixpoint GetSubstitution (matched preceding following template : jsstring)
  : jsstring :=
  match template with
  | [] => []
  | c :: t' =>
      if c =? 36 then
        match t' with
        | [] => [c]
        | d :: t'' =>
            if d =? 36 then
              36 :: GetSubstitution matched preceding following t''
            else if d =? 38 then
              matched ++ GetSubstitution matched preceding following t''
            else if d =? 96 then
              preceding ++ GetSubstitution matched preceding following t''
            else if d =? 39 then
              following ++ GetSubstitution matched preceding following t''
            else c :: GetSubstitution matched preceding following t'
        end
      else c :: GetSubstitution matched preceding following t'
  end.

(** [s.replace(searchValue, replaceValue)] with two strings: only the first
    occurrence is replaced, and the replacement text is a template. *)
Definition replace (s searchValue replaceValue : jsstring) : jsstring :=
  match indexOf s searchValue with
  | None => s
  | Some pos =>
      let preceding := firstn pos s in
      let following := skipn (pos + length searchValue) s in
      preceding
        ++ GetSubstitution searchValue preceding following replaceValue
        ++ following
  end.

(** *** JSON.stringify *)

Definition is_leading_surrogate (c : code_unit) : bool :=
  (0xD800 <=? c) && (c <=? 0xDBFF).

Definition is_trailing_surrogate (c : code_unit) : bool :=
  (0xDC00 <=? c) && (c <=? 0xDFFF).

Definition hex_digit (d : N) : code_unit :=
  if d <? 10 then 48 + d else 87 + d.

(** [UnicodeEscape]: a backslash, the letter u and four lowercase
    hexadecimal digits. *)
Definition UnicodeEscape (c : code_unit) : jsstring :=
  [92; 117; hex_digit (c / 4096 mod 16); hex_digit (c / 256 mod 16);
   hex_digit (c / 16 mod 16); hex_digit (c mod 16)].

(** What [QuoteJSONString] appends for a code unit that is not the first
    half of a surrogate pair. *)
Definition quote_code_unit (c : code_unit) : jsstring :=
  if c =? 8 then lit "\b"
  else if c =? 9 then lit "\t"
  else if c =? 10 then lit "\n"
  else if c =? 12 then lit "\f"
  else if c =? 13 then lit "\r"
  else if c =? 34 then 92 :: dquote
  else if c =? 92 then lit "\\"
  else if (c <? 32) || is_leading_surrogate c || is_trailing_surrogate c
       then UnicodeEscape c
  else [c].

(** The loop of [QuoteJSONString] over the code points of the string: a
    leading surrogate followed by a trailing one is a single code point and
    is copied, any other surrogate is alone and escaped. *)
Fixpoint quote_code_points (s : jsstring) : jsstring :=
  match s with
  | [] => []
  | c :: s' =>
      if is_leading_surrogate c then
        match s' with
        | [] => UnicodeEscape c
        | d :: s'' =>
            if is_trailing_surrogate d then c :: d :: quote_code_points s''
            else UnicodeEscape c ++ quote_code_points s'
        end
      else quote_code_unit c ++ quote_code_points s'
  end.

Definition QuoteJSONString (s : jsstring) : jsstring :=
  dquote ++ quote_code_points s ++ dquote.

(** [Array.prototype.join] on strings. *)
Fixpoint join (sep : jsstring) (parts : list jsstring) : jsstring :=
  match parts with
  | [] => []
  | [p] => p
  | p :: rest => p ++ sep ++ join sep rest
  end.

(** [SerializeJSONArray], without indentation. *)
Definition SerializeJSONArray (elements : list jsstring) : jsstring :=
  match elements with
  | [] => lit "[]"
  | _ => lit "[" ++ join (lit ",") elements ++ lit "]"
  end.

(** [SerializeJSONObject], without indentation, from the object's own
    properties in creation order. *)
Definition SerializeJSONObject (members : list (jsstring * jsstring))
  : jsstring :=
  match members with
  | [] => lit "{}"
  | _ =>
      lit "{"
        ++ join (lit ",")
             (map (fun m => QuoteJSONString (fst m) ++ lit ":" ++ snd m)
                members)
        ++ lit "}"
  end.

Definition SerializeJSONBoolean (b : bool) : jsstring :=
  if b then lit "true" else lit "false".

(** *** Reading serialised strings back

    The reader below is not part of the program: it is the left inverse of
    [QuoteJSONString], which shows that the text a result carries determines
    the collection it was made from. *)

Definition unhex (c : code_unit) : option N :=
  if (48 <=? c) && (c <=? 57) then Some (c - 48)
  else if (97 <=? c) && (c <=? 102) then Some (c - 87)
  else None.

(** The code unit that a two-character escape stands for. *)
Definition unescape (e : code_unit) : option code_unit :=
  if e =? 98 then Some 8
  else if e =? 116 then Some 9
  else if e =? 110 then Some 10
  else if e =? 102 then Some 12
  else if e =? 114 then Some 13
  else if e =? 34 then Some 34
  else if e =? 92 then Some 92
  else None.

(** The result of reading one more code unit before [r]. *)
Definition push (c : code_unit) (r : option (jsstring * jsstring))
  : option (jsstring * jsstring) :=
  match r with
  | Some (v, rest) => Some (c :: v, rest)
  | None => None
  end.

(** Reads a quoted string from just after its opening quote: the string
    and what follows the closing quote. *)
Fixpoint read_string_body (s : jsstring) : option (jsstring * jsstring) :=
  match s with
  | [] => None
  | c :: s1 =>
      if c =? 34 then Some ([], s1)
      else if c =? 92 then
        match s1 with
        | [] => None
        | e :: s2 =>
            if e =? 117 then
              match s2 with
              | h3 :: h2 :: h1 :: h0 :: s6 =>
                  match unhex h3, unhex h2, unhex h1, unhex h0 with
                  | Some a, Some b, Some c', Some d =>
                      push (4096 * a + 256 * b + 16 * c' + d)
                           (read_string_body s6)
                  | _, _, _, _ => None
                  end
              | _ => None
              end
            else
              match unescape e with
              | Some x => push x (read_string_body s2)
              | None => None
              end
        end
      else push c (read_string_body s1)
  end.

(** Drops the prefix [p] of [s], when [s] starts with it. *)
Definition expect (p s : jsstring) : option jsstring :=
  if starts_with p s then Some (skipn (length p) s) else None.

(** No control character: every code unit is U+0020 or above. *)
Definition printable (s : jsstring) : Prop := Forall (fun u => 32 <= u) s.

(** The code units that [QuoteJSONString] copies whatever stands next to
    them: no control character, double quote, backslash or surrogate. *)
Definition copied_by_quote (c : code_unit) : bool :=
  negb ((c <? 32) || (c =? 34) || (c =? 92)
        || is_leading_surrogate c || is_trailing_surrogate c).

End JS.

(** ** The tool host ([app/mcp/route.ts]) *)

Module Route.
Import JS.

(** An element of [todos]: [{ id, title, completed }]. *)
Record todo := { id : jsstring; title : jsstring; completed : bool }.

(** The object [{ tasks: todos }] that every result carries. *)
Record payload := { tasks : list todo }.

Record content_block := { type : jsstring; text : jsstring }.

(** What a tool handler returns. The [_meta] object is kept as the list of
    its properties. *)
Record tool_result := {
  content : list content_block;
  structuredContent : payload;
  _meta : list (jsstring * payload)
}.

(** Property lookup in an object kept as a list of properties. *)
Fixpoint get {A : Type} (o : list (jsstring * A)) (key : jsstring)
  : option A :=
  match o with
  | [] => None
  | (k, v) :: o' => if strict_eq k key then Some v else get o' key
  end.

(** The module-level variables [todos] and [nextId]. Arrays hold fewer
    than 2^32 elements, so the counter stays far below 2^53 and its
    increments are exact: it is a natural number here. *)
Record state := { todos : list todo; nextId : N }.

(** [let todos = []; let nextId = 1;] *)
Definition initial : state := {| todos := []; nextId := 1 |}.

(** [JSON.stringify] on a todo and on [{ tasks }]. *)
Definition stringify_todo (t : todo) : jsstring :=
  SerializeJSONObject
    [ (lit "id", QuoteJSONString (id t));
      (lit "title", QuoteJSONString (title t));
      (lit "completed", SerializeJSONBoolean (completed t)) ].

Definition JSON_stringify (p : payload) : jsstring :=
  SerializeJSONObject
    [ (lit "tasks", SerializeJSONArray (map stringify_todo (tasks p))) ].

(** Readers for the two serialisations, the left inverses of
    [stringify_todo] and [JSON_stringify]; like [read_string_body] they
    serve the proofs only. *)
Definition read_todo (s : jsstring) : option (todo * jsstring) :=
  match expect (lit "{" ++ QuoteJSONString (lit "id") ++ lit ":" ++ dquote) s
  with
  | None => None
  | Some s1 =>
      match read_string_body s1 with
      | None => None
      | Some (id_, s2) =>
          match expect (lit "," ++ QuoteJSONString (lit "title") ++ lit ":"
                          ++ dquote) s2
          with
          | None => None
          | Some s3 =>
              match read_string_body s3 with
              | None => None
              | Some (title_, s4) =>
                  match expect (lit "," ++ QuoteJSONString (lit "completed")
                                  ++ lit ":") s4
                  with
                  | None => None
                  | Some s5 =>
                      match expect (lit "true}") s5, expect (lit "false}") s5
                      with
                      | Some rest, _ =>
                          Some ({| id := id_; title := title_;
                                   completed := true |}, rest)
                      | None, Some rest =>
                          Some ({| id := id_; title := title_;
                                   completed := false |}, rest)
                      | None, None => None
                      end
                  end
              end
          end
      end
  end.

(** Reads todos separated by commas up to the closing bracket; [fuel]
    bounds the number of todos. *)
Fixpoint read_todos (fuel : nat) (s : jsstring)
  : option (list todo * jsstring) :=
  match fuel with
  | O => None
  | S fuel' =>
      match read_todo s with
      | None => None
      | Some (t, rest) =>
          match rest with
          | [] => None
          | c :: rest' =>
              if c =? 44 then
                match read_todos fuel' rest' with
                | Some (ts, r) => Some (t :: ts, r)
                | None => None
                end
              else if c =? 93 then Some ([t], rest')
              else None
          end
      end
  end.

Definition read_payload (s : jsstring) : option (payload * jsstring) :=
  match expect (lit "{" ++ QuoteJSONString (lit "tasks") ++ lit ":[") s with
  | None => None
  | Some r =>
      match expect (lit "]}") r with
      | Some rest => Some ({| tasks := [] |}, rest)
      | None =>
          match read_todos (length r) r with
          | Some (ts, r') =>
              match expect (lit "}") r' with
              | Some rest => Some ({| tasks := ts |}, rest)
              | None => None
              end
          | None => None
          end
      end
  end.

(** Reads the payload out of a data block: the opening tag, the payload,
    the closing tag and nothing else. *)
Definition read_widget_data (block : jsstring) : option payload :=
  match expect (lit "<widget-data>") block with
  | None => None
  | Some r =>
      match read_payload r with
      | Some (p, rest) =>
          if strict_eq rest (lit "</widget-data>") then Some p else None
      | None => None
      end
  end.

(** [z.string().min(1)], the schema of [title] and of [id]. *)
Definition string_min (n : nat) (s : jsstring) : bool :=
  (n <=? length s)%nat.

Definition add_todo_inputSchema (title : jsstring) : bool :=
  string_min 1 title.

Definition complete_todo_inputSchema (id : jsstring) : bool :=
  string_min 1 id.

(** The handler of [add_todo] (lines 97 to 114). *)
Definition add_todo (title_ : jsstring) (s : state) : tool_result * state :=
  let todo :=
    {| id := lit "todo-" ++ number_to_string (nextId s);
       title := title_;
       completed := false |} in
  let nextId' := nextId s + 1 in
  let todos' := todos s ++ [todo] in
  ({| content :=
        [ {| type := lit "text";
             text := lit "Added " ++ dquote ++ title todo ++ dquote
                       ++ lit "." |};
          {| type := lit "text";
             text := lit "<widget-data>"
                       ++ JSON_stringify {| tasks := todos' |}
                       ++ lit "</widget-data>" |} ];
      structuredContent := {| tasks := todos' |};
      _meta := [ (lit "openai/widgetData", {| tasks := todos' |}) ] |},
   {| todos := todos'; nextId := nextId' |}).

(** The function that [complete_todo] maps over the collection:
    [(task) => task.id === id ? { ...task, completed: true } : task]. *)
Definition mark (id_ : jsstring) (task : todo) : todo :=
  if strict_eq (id task) id_
  then {| id := id task; title := title task; completed := true |}
  else task.

(** The handler of [complete_todo] (lines 132 to 167). *)
Definition complete_todo (id_ : jsstring) (s : state) : tool_result * state :=
  match find (fun task => strict_eq (id task) id_) (todos s) with
  | None =>
      ({| content :=
            [ {| type := lit "text";
                 text := lit "Todo " ++ id_ ++ lit " was not found." |};
              {| type := lit "text";
                 text := lit "<widget-data>"
                           ++ JSON_stringify {| tasks := todos s |}
                           ++ lit "</widget-data>" |} ];
          structuredContent := {| tasks := todos s |};
          _meta := [ (lit "openai/widgetData", {| tasks := todos s |}) ] |},
       s)
  | Some todo =>
      let todos' := map (mark id_) (todos s) in
      ({| content :=
            [ {| type := lit "text";
                 text := lit "Completed " ++ dquote ++ title todo ++ dquote
                           ++ lit "." |};
              {| type := lit "text";
                 text := lit "<widget-data>"
                           ++ JSON_stringify {| tasks := todos' |}
                           ++ lit "</widget-data>" |} ];
          structuredContent := {| tasks := todos' |};
          _meta := [ (lit "openai/widgetData", {| tasks := todos' |}) ] |},
       {| todos := todos'; nextId := nextId s |})
  end.

(** The handler of [list_todos] (lines 181 to 193). *)
Definition list_todos (s : state) : tool_result * state :=
  ({| content :=
        [ {| type := lit "text";
             text := lit "You have "
                       ++ number_to_string (N.of_nat (length (todos s)))
                       ++ lit " todos." |};
          {| type := lit "text";
             text := lit "<widget-data>"
                       ++ JSON_stringify {| tasks := todos s |}
                       ++ lit "</widget-data>" |} ];
      structuredContent := {| tasks := todos s |};
      _meta := [ (lit "openai/widgetData", {| tasks := todos s |}) ] |},
   s).

(** The three registered tools with their arguments. *)
Inductive tool_call :=
| AddTodo (title : jsstring)
| CompleteTodo (id : jsstring)
| ListTodos.

Definition handle (c : tool_call) (s : state) : tool_result * state :=
  match c with
  | AddTodo title => add_todo title s
  | CompleteTodo id => complete_todo id s
  | ListTodos => list_todos s
  end.

(** The state after a sequence of calls, each run to completion before the
    next. *)
Fixpoint run (cs : list tool_call) (s : state) : state :=
  match cs with
  | [] => s
  | c :: cs' => run cs' (snd (handle c s))
  end.

(** [list_todos] called [n] times in a row. *)
Fixpoint list_todos_times (n : nat) (s : state) : state :=
  match n with
  | O => s
  | S n' => list_todos_times n' (snd (list_todos s))
  end.

(** The states of a process lifetime: the initial one and those that
    calls lead to. *)
Inductive reachable : state -> Prop :=
| reachable_initial : reachable initial
| reachable_handle c s : reachable s -> reachable (snd (handle c s)).

(** What the [add_todo] calls of a sequence assign, in call order, one
    entry for each call: the identifier of the item that stands, after the
    call, at the place past the end of the collection before it, or [None]
    when the call left no item there. *)
Fixpoint assigned_ids (cs : list tool_call) (s : state)
  : list (option jsstring) :=
  match cs with
  | [] => []
  | c :: cs' =>
      let s' := snd (handle c s) in
      match c with
      | AddTodo _ =>
          option_map id (nth_error (todos s') (length (todos s)))
            :: assigned_ids cs' s'
      | _ => assigned_ids cs' s'
      end
  end.

(** The identifier made from the counter value [k]. *)
Definition todo_id (k : N) : jsstring := lit "todo-" ++ number_to_string k.

(** The order of identifiers by counter value. *)
Definition id_lt (a b : jsstring) : Prop :=
  exists m n, a = todo_id m /\ b = todo_id n /\ m < n.

(** The numbering that the calls maintain: the identifiers in the collection
    are todo-1, todo-2, ... in order, and the counter is one past their
    number. *)
Definition well_numbered (s : state) : Prop :=
  map id (todos s)
    = map (fun i => todo_id (N.of_nat i)) (seq 1 (length (todos s)))
  /\ nextId s = N.of_nat (S (length (todos s))).

Definition is_list_todos (c : tool_call) : bool :=
  match c with ListTodos => true | _ => false end.

(** The number of [add_todo] calls in a sequence. *)
Fixpoint count_add_todo (cs : list tool_call) : nat :=
  match cs with
  | [] => O
  | AddTodo _ :: cs' => S (count_add_todo cs')
  | _ :: cs' => count_add_todo cs'
  end.

(** The three representations of the collection in a result: the text of
    the second content block, the structured content and the entry of
    [_meta]. *)
Definition carries (r : tool_result) (ts : list todo) : Prop :=
  (exists first,
     content r =
       [ first;
         {| type := lit "text";
            text := lit "<widget-data>" ++ JSON_stringify {| tasks := ts |}
                      ++ lit "</widget-data>" |} ]
     /\ type first = lit "text")
  /\ structuredContent r = {| tasks := ts |}
  /\ get (_meta r) (lit "openai/widgetData") = Some {| tasks := ts |}.

End Route.

(** ** The build script ([scripts/build-widget.mjs]) *)

Module BuildWidget.
Import JS.

Definition dataInjectionScript : jsstring :=
  lit "
    <script>
        // Multiple methods to receive data (OpenAI ChatGPT integration)
        function checkAndRenderData() {
            // Method 1: Check window.openai.toolOutput
            if (typeof window !== 'undefined' && window.openai?.toolOutput?.tasks) {
                if (window.renderTodos) window.renderTodos(window.openai.toolOutput.tasks);
                return true;
            }
            // Method 2: Check window.openai.toolResponseMetadata
            if (typeof window !== 'undefined' && window.openai?.toolResponseMetadata?.['openai/widgetData']?.tasks) {
                if (window.renderTodos) window.renderTodos(window.openai.toolResponseMetadata['openai/widgetData'].tasks);
                return true;
            }
            return false;
        }

        // Method 3: Listen for postMessage events
        window.addEventListener('message', (event) => {
            if (event.data.type === 'structuredContent' && event.data.content?.tasks) {
                if (window.renderTodos) window.renderTodos(event.data.content.tasks);
            }
            if (event.data.type === 'widgetData' && event.data.tasks) {
                if (window.renderTodos) window.renderTodos(event.data.tasks);
            }
        });

        // Initial check on load
        if (document.readyState === 'loading') {
            document.addEventListener('DOMContentLoaded', checkAndRenderData);
        } else {
            checkAndRenderData();
        }

        // Poll for data (OpenAI may inject data after mount)
        const interval = setInterval(() => {
            if (checkAndRenderData()) {
                clearInterval(interval);
            }
        }, 100);

        // Stop polling after 5 seconds
        setTimeout(() => clearInterval(interval), 5000);
    </script>
  ".

Definition closing_body : jsstring := lit "</body>".

(** [processWidgetHtml(html)] (lines 81 to 137); [dataInjectionScript]
    above is the template literal of lines 83 to 127. *)
Definition processWidgetHtml (html : jsstring) : jsstring :=
  if includes html closing_body
  then replace html closing_body (dataInjectionScript ++ closing_body)
  else html ++ dataInjectionScript.

(** What [fetch(WIDGET_CONFIG.url)] gives: the promise is rejected (no
    server is listening) or it resolves to a response. [body] is what
    [await response.text()] gives: the text of the page, or [None] when
    reading the body fails and the promise is rejected. *)
Record response := {
  ok : bool;
  status : N;
  statusText : jsstring;
  body : option jsstring
}.

Inductive fetch_outcome :=
| fetch_rejected
| fetch_resolved (r : response).

(** The part of the disk that the script touches: whether the directory
    of [WIDGET_CONFIG.output] exists, and the text of the file, [None] when
    there is no file. *)
Record disk := {
  outputDir_exists : bool;
  output_file : option jsstring
}.

(** How [writeFileSync] goes in a run: it writes the file in full; or it
    throws before it touches the file (the file cannot be opened); or it
    throws after it has opened and truncated the file, which then holds
    whatever got written, [partial]. *)
Inductive write_outcome :=
| write_done
| write_refused
| write_cut (partial : jsstring).

(** What the file system does in one run when the script calls it:
    whether [mkdirSync] succeeds, and how [writeFileSync] goes. *)
Record file_system := {
  mkdirSync_succeeds : bool;
  writeFileSync_outcome : write_outcome
}.

(** [buildWidget()] (lines 27 to 76): the disk it leaves and the exit code
    of the process. Every failure inside the [try] block (a rejected
    [fetch], a response that is not [ok], a body that cannot be read, a
    throwing [mkdirSync] or [writeFileSync]) ends in the [catch] block and
    [process.exit(1)]. *)
Definition buildWidget (server : fetch_outcome) (fs : file_system)
  (d : disk) : disk * N :=
  match server with
  | fetch_rejected => (d, 1)
  | fetch_resolved response =>
      if negb (ok response) then (d, 1)
      else
        match body response with
        | None => (d, 1)
        | Some html =>
            let html := processWidgetHtml html in
            if negb (outputDir_exists d) && negb (mkdirSync_succeeds fs)
            then (d, 1)
            else
              let d :=
                if negb (outputDir_exists d)
                then {| outputDir_exists := true;
                        output_file := output_file d |}
                else d in
              match writeFileSync_outcome fs with
              | write_done =>
                  ({| outputDir_exists := outputDir_exists d;
                      output_file := Some html |}, 0)
              | write_refused => (d, 1)
              | write_cut partial =>
                  ({| outputDir_exists := outputDir_exists d;
                      output_file := Some partial |}, 1)
              end
        end
  end.

End BuildWidget.

Import JS Route BuildWidget.

(** * Facts about the string operations *)

Section Strings.

Lemma strict_eq_true (a b : jsstring) : strict_eq a b = true <-> a = b.
Proof.
  revert b; induction a as [|x a IH]; intros [|y b]; simpl;
    try (split; [discriminate | discriminate]); try tauto.
  rewrite andb_true_iff, N.eqb_eq, IH.
  split; [intros [-> ->]; reflexivity | intros [= -> ->]; auto].
Qed.

Lemma strict_eq_refl (a : jsstring) : strict_eq a a = true.
Proof. now apply strict_eq_true. Qed.

Lemma strict_eq_false (a b : jsstring) : strict_eq a b = false <-> a <> b.
Proof.
  rewrite <- strict_eq_true. destruct (strict_eq a b); split; congruence.
Qed.

Lemma N_of_ascii_inj (a b : ascii) : N_of_ascii a = N_of_ascii b -> a = b.
Proof.
  intros H. rewrite <- (ascii_N_embedding a), <- (ascii_N_embedding b).
  now rewrite H.
Qed.

Lemma lit_inj (s t : string) : lit s = lit t -> s = t.
Proof.
  unfold lit. intros H.
  rewrite <- (string_of_list_ascii_of_string s),
          <- (string_of_list_ascii_of_string t).
  f_equal.
  revert H. generalize (list_ascii_of_string s) (list_ascii_of_string t).
  intros l; induction l as [|a l IH]; intros [|b l']; simpl;
    try discriminate; auto.
  intros [= Hab Hl]. f_equal; [now apply N_of_ascii_inj | now apply IH].
Qed.

Lemma to_uint_not_Nil (n : N) : N.to_uint n <> Decimal.Nil.
Proof.
  destruct n as [|p]; simpl; [discriminate|].
  apply DecimalPos.Unsigned.to_uint_nonnil.
Qed.

(** Two numbers print alike only when they are equal. *)
Lemma number_to_string_inj (m n : N) :
  number_to_string m = number_to_string n -> m = n.
Proof.
  unfold number_to_string. intros H. apply lit_inj in H.
  apply DecimalN.Unsigned.to_uint_inj.
  assert (Hm := NilZero.usu _ (to_uint_not_Nil m)).
  assert (Hn := NilZero.usu _ (to_uint_not_Nil n)).
  rewrite H in Hm. congruence.
Qed.

Lemma todo_id_inj (m n : N) : todo_id m = todo_id n -> m = n.
Proof.
  unfold todo_id. intros H. apply app_inv_head in H.
  now apply number_to_string_inj.
Qed.

(** [starts_with] decides being a prefix. *)
Lemma starts_with_true (p s : jsstring) :
  starts_with p s = true <-> exists r, s = p ++ r.
Proof.
  revert s; induction p as [|x p IH]; intros s; simpl.
  - split; [intros _; now exists s | reflexivity].
  - destruct s as [|y s].
    + split; [discriminate | intros [r [=]]].
    + rewrite andb_true_iff, N.eqb_eq, IH. split.
      * intros [-> [r ->]]. now exists r.
      * intros [r [= -> ->]]. split; [reflexivity | now exists r].
Qed.

Lemma indexOf_unfold (s p : jsstring) :
  indexOf s p =
    if starts_with p s then Some 0%nat
    else match s with
         | [] => None
         | _ :: s' => option_map S (indexOf s' p)
         end.
Proof. destruct s; reflexivity. Qed.

(** A found index splits the string around the first occurrence. *)
Lemma indexOf_Some (s p : jsstring) (i : nat) :
  indexOf s p = Some i ->
  s = firstn i s ++ p ++ skipn (i + length p) s
  /\ forall j, (j < i)%nat -> starts_with p (skipn j s) = false.
Proof.
  revert i; induction s as [|c s IH]; intros i; rewrite indexOf_unfold.
  - destruct (starts_with p []) eqn:E; [|discriminate].
    intros [= <-]. apply starts_with_true in E as [r E].
    split; [|intros j Hj; lia].
    symmetry in E. apply app_eq_nil in E as [-> ->]. reflexivity.
  - destruct (starts_with p (c :: s)) eqn:E.
    + intros [= <-]. apply starts_with_true in E as [r E].
      split; [|intros j Hj; lia].
      simpl firstn. simpl "++" at 1. rewrite E at 2.
      rewrite skipn_app, skipn_all, Nat.sub_diag. simpl. exact E.
    + destruct (indexOf s p) as [k|] eqn:Ek; [|discriminate].
      intros [= <-]. destruct (IH k eq_refl) as [Hs Hmin].
      split.
      * simpl. f_equal. exact Hs.
      * intros [|j] Hj; [exact E|]. simpl. apply Hmin. lia.
Qed.

Lemma indexOf_None (s p : jsstring) :
  indexOf s p = None -> forall pre post, s <> pre ++ p ++ post.
Proof.
  induction s as [|c s IH]; rewrite indexOf_unfold;
    destruct (starts_with p _) eqn:E; try discriminate.
  - intros _ pre post H.
    symmetry in H. apply app_eq_nil in H as [-> H]. simpl in H.
    apply app_eq_nil in H as [-> _]. discriminate E.
  - destruct (indexOf s p) eqn:Ek; [discriminate|]. intros _ pre post H.
    destruct pre as [|x pre].
    + assert (starts_with p (c :: s) = true)
        by (apply starts_with_true; now exists post).
      congruence.
    + injection H as _ H. exact (IH eq_refl pre post H).
Qed.

(** [includes] holds exactly of the strings that contain the pattern. *)
Lemma includes_true (s p : jsstring) :
  includes s p = true <-> exists pre post, s = pre ++ p ++ post.
Proof.
  unfold includes. destruct (indexOf s p) as [i|] eqn:E.
  - split; [intros _|reflexivity].
    apply indexOf_Some in E as [E _]. eauto.
  - split; [discriminate|]. intros (pre & post & H).
    now apply indexOf_None with (pre := pre) (post := post) in E.
Qed.

(** A template without a dollar sign is inserted as it is. *)
Lemma GetSubstitution_plain (m a b t : jsstring) :
  forallb (fun c => negb (c =? 36)) t = true ->
  GetSubstitution m a b t = t.
Proof.
  induction t as [|c t IH]; simpl; [reflexivity|].
  rewrite andb_true_iff, negb_true_iff. intros [Hc Ht].
  rewrite Hc. f_equal. auto.
Qed.

End Strings.

(** * Facts about the tool host *)

Section ToolHost.

Lemma id_mark (id_ : jsstring) (task : todo) : id (mark id_ task) = id task.
Proof. unfold mark. now destruct (strict_eq (id task) id_). Qed.

Lemma mark_mark (id_ : jsstring) (task : todo) :
  mark id_ (mark id_ task) = mark id_ task.
Proof.
  unfold mark. destruct (strict_eq (id task) id_) eqn:E; simpl; now rewrite E.
Qed.

Lemma mark_other (id_ : jsstring) (task : todo) :
  id task <> id_ -> mark id_ task = task.
Proof.
  intros H. unfold mark. apply strict_eq_false in H. now rewrite H.
Qed.

Lemma todos_complete_todo (id_ : jsstring) (s : state) :
  todos (snd (complete_todo id_ s)) =
    match find (fun task => strict_eq (id task) id_) (todos s) with
    | None => todos s
    | Some _ => map (mark id_) (todos s)
    end.
Proof. unfold complete_todo. now destruct (find _ _). Qed.

Lemma nextId_complete_todo (id_ : jsstring) (s : state) :
  nextId (snd (complete_todo id_ s)) = nextId s.
Proof. unfold complete_todo. now destruct (find _ _). Qed.

Lemma find_absent (id_ : jsstring) (l : list todo) :
  ~ In id_ (map id l) ->
  find (fun task => strict_eq (id task) id_) l = None.
Proof.
  intros H. destruct (find _ l) as [t|] eqn:E; [|reflexivity].
  apply find_some in E as [Hin Heq]. apply strict_eq_true in Heq.
  exfalso. apply H. rewrite <- Heq. now apply in_map.
Qed.

Lemma find_present (id_ : jsstring) (l : list todo) :
  In id_ (map id l) ->
  exists t, find (fun task => strict_eq (id task) id_) l = Some t
            /\ In t l /\ id t = id_.
Proof.
  intros H. destruct (find _ l) as [t|] eqn:E.
  - exists t. apply find_some in E as [Hin Heq].
    apply strict_eq_true in Heq. auto.
  - apply in_map_iff in H as (t & Ht & Hin).
    apply (find_none _ _ E) in Hin. simpl in Hin.
    rewrite Ht, strict_eq_refl in Hin. discriminate.
Qed.

(** Every call keeps the numbering. *)
Lemma handle_well_numbered (c : tool_call) (s : state) :
  well_numbered s -> well_numbered (snd (handle c s)).
Proof.
  intros [Hids Hnext]. destruct c as [title_|id_|]; simpl.
  - split; simpl.
    + rewrite map_app, length_app, Nat.add_1_r, seq_S, map_app, Hids.
      simpl. rewrite Hnext. reflexivity.
    + rewrite length_app, Nat.add_1_r, Hnext. lia.
  - unfold well_numbered.
    rewrite todos_complete_todo, nextId_complete_todo.
    destruct (find _ _); [|now split].
    rewrite map_map, length_map.
    rewrite (map_ext _ id (id_mark id_)). now split.
  - now split.
Qed.

Lemma reachable_well_numbered (s : state) : reachable s -> well_numbered s.
Proof.
  induction 1 as [|c s _ IH]; [now split | now apply handle_well_numbered].
Qed.

Lemma run_reachable (cs : list tool_call) (s : state) :
  reachable s -> reachable (run cs s).
Proof.
  revert s; induction cs as [|c cs IH]; intros s H; simpl; [exact H|].
  apply IH. now constructor.
Qed.

Lemma well_numbered_NoDup (s : state) :
  well_numbered s -> NoDup (map id (todos s)).
Proof.
  intros [-> _]. apply Injective_map_NoDup; [|apply seq_NoDup].
  intros i j H. apply todo_id_inj in H. lia.
Qed.

(** The identifier that the next [add_todo] makes is not in use. *)
Lemma well_numbered_fresh (s : state) :
  well_numbered s -> ~ In (todo_id (nextId s)) (map id (todos s)).
Proof.
  intros [-> ->] H. apply in_map_iff in H as (i & Hi & Hin).
  apply todo_id_inj in Hi. apply in_seq in Hin. lia.
Qed.

Lemma id_lt_neq (a b : jsstring) : id_lt a b -> a <> b.
Proof.
  intros (m & n & -> & -> & Hlt) H. apply todo_id_inj in H. lia.
Qed.

Lemma id_lt_trans (a b c : jsstring) : id_lt a b -> id_lt b c -> id_lt a c.
Proof.
  intros (m & n & -> & -> & H1) (n' & k & H & -> & H2).
  apply todo_id_inj in H. subst n'. exists m, k. repeat split; lia.
Qed.

Lemma todo_ids_sorted (start len : nat) :
  StronglySorted id_lt
    (map (fun i => todo_id (N.of_nat i)) (seq start len)).
Proof.
  revert start; induction len as [|len IH]; intros start; simpl;
    constructor; [apply IH|].
  apply Forall_forall. intros b Hb.
  apply in_map_iff in Hb as (j & <- & Hj). apply in_seq in Hj.
  exists (N.of_nat start), (N.of_nat j). repeat split. lia.
Qed.

(** The entries assigned along a sequence of calls are the identifiers of
    the items that the sequence adds: no [add_todo] call goes without. *)
Lemma assigned_ids_todos (cs : list tool_call) (s : state) :
  map Some (map id (todos (run cs s)))
  = map Some (map id (todos s)) ++ assigned_ids cs s.
Proof.
  revert s; induction cs as [|c cs IH]; intros s.
  - simpl. now rewrite app_nil_r.
  - destruct c as [title_|id_|]; cbn [run assigned_ids handle]; rewrite IH.
    + cbn [add_todo snd todos].
      rewrite nth_error_app2, Nat.sub_diag by lia. cbn [nth_error option_map].
      rewrite !map_app, <- app_assoc. reflexivity.
    + do 2 f_equal. rewrite todos_complete_todo.
      destruct (find _ _); [|reflexivity].
      rewrite map_map. apply map_ext, id_mark.
    + reflexivity.
Qed.

(** The collection has as many items more as the sequence has [add_todo]
    calls. *)
Lemma length_todos_run (cs : list tool_call) (s : state) :
  length (todos (run cs s)) = (length (todos s) + count_add_todo cs)%nat.
Proof.
  revert s; induction cs as [|c cs IH]; intros s; cbn [run count_add_todo].
  - lia.
  - rewrite IH. destruct c as [title_|id_|]; cbn [handle].
    + cbn [add_todo snd todos]. rewrite length_app. simpl. lia.
    + rewrite todos_complete_todo.
      destruct (find _ _); [rewrite length_map|]; lia.
    + reflexivity.
Qed.

End ToolHost.

(** * The tool handlers *)

Section Handlers.

Lemma carries_add_todo (title_ : jsstring) (s : state) :
  carries (fst (add_todo title_ s)) (todos (snd (add_todo title_ s))).
Proof.
  unfold carries, add_todo; cbn [fst snd content structuredContent _meta todos].
  split; [|split; reflexivity].
  eexists; split; reflexivity.
Qed.

Lemma carries_complete_todo (id_ : jsstring) (s : state) :
  carries (fst (complete_todo id_ s)) (todos (snd (complete_todo id_ s))).
Proof.
  unfold carries, complete_todo. destruct (find _ _);
    cbn [fst snd content structuredContent _meta todos];
    (split; [|split; reflexivity]); eexists; split; reflexivity.
Qed.

Lemma carries_list_todos (s : state) :
  carries (fst (list_todos s)) (todos (snd (list_todos s))).
Proof.
  unfold carries, list_todos; cbn [fst snd content structuredContent _meta].
  split; [|split; reflexivity].
  eexists; split; reflexivity.
Qed.

(** The scenario of the specification: add, complete, list. *)
Example scenario_buy_milk :
  let s1 := snd (add_todo (lit "Buy milk") initial) in
  let s2 := snd (complete_todo (lit "todo-1") s1) in
  todos s1
    = [ {| id := lit "todo-1"; title := lit "Buy milk"; completed := false |} ]
  /\ todos s2
    = [ {| id := lit "todo-1"; title := lit "Buy milk"; completed := true |} ]
  /\ map text (firstn 1 (content (fst (list_todos s2))))
    = [ lit "You have 1 todos." ].
Proof. repeat split. Qed.

Lemma list_todos_times_id (n : nat) (s : state) : list_todos_times n s = s.
Proof. induction n as [|n IH]; simpl; auto. Qed.

(** Claim C1. In every state that the process can be in, [add_todo] with a
    title that passes the input schema puts exactly one new item at the end
    of the collection: the items that were there stay, in order, the length
    grows by one, and the new item holds the title, is not completed and has
    an identifier that no item of the collection had. *)
Theorem add_todo_appends_one (title_ : jsstring) (s : state) :
  reachable s ->
  add_todo_inputSchema title_ = true ->
  exists t : todo,
    todos (snd (add_todo title_ s)) = todos s ++ [t]
    /\ length (todos (snd (add_todo title_ s))) = S (length (todos s))
    /\ title t = title_
    /\ completed t = false
    /\ ~ In (id t) (map id (todos s)).
Proof.
  intros Hs _. apply reachable_well_numbered in Hs.
  eexists. split; [reflexivity|]. cbn [add_todo snd todos].
  rewrite length_app, Nat.add_1_r.
  repeat split. now apply well_numbered_fresh.
Qed.

Lemma add_todo_appends_one_witness :
  let s := snd (add_todo (lit "Buy milk") initial) in
  reachable s
  /\ add_todo_inputSchema (lit "Walk the dog") = true
  /\ exists t : todo,
       todos (snd (add_todo (lit "Walk the dog") s)) = todos s ++ [t]
       /\ length (todos (snd (add_todo (lit "Walk the dog") s)))
          = S (length (todos s))
       /\ title t = lit "Walk the dog"
       /\ completed t = false
       /\ ~ In (id t) (map id (todos s)).
Proof.
  assert (H : reachable (snd (add_todo (lit "Buy milk") initial)))
    by exact (reachable_handle (AddTodo (lit "Buy milk")) initial
                reachable_initial).
  split; [exact H|]. split; [reflexivity|].
  exact (add_todo_appends_one (lit "Walk the dog") _ H eq_refl).
Defined.

(** Claim C2. Along any sequence of calls from the start of the process,
    every [add_todo] call assigns an identifier, and the identifiers
    assigned are todo-1, todo-2, ..., todo-n in call order, n being the
    number of [add_todo] calls: the counter starts at 1, goes up by one at
    each add and ends at n + 1. The identifiers are pairwise distinct and
    strictly increasing in the order of their counter values. *)
Theorem assigned_ids_distinct_increasing (cs : list tool_call) :
  exists ids : list jsstring,
    assigned_ids cs initial = map Some ids
    /\ ids = map (fun i => todo_id (N.of_nat i)) (seq 1 (count_add_todo cs))
    /\ nextId (run cs initial) = N.of_nat (count_add_todo cs) + 1
    /\ NoDup ids
    /\ StronglySorted id_lt ids.
Proof.
  exists (map id (todos (run cs initial))).
  assert (Hr : reachable (run cs initial))
    by apply run_reachable, reachable_initial.
  apply reachable_well_numbered in Hr.
  assert (Hnd := well_numbered_NoDup _ Hr).
  assert (Hlen := length_todos_run cs initial). cbn [initial todos length] in Hlen.
  destruct Hr as [Hids Hnext]. rewrite Hlen in Hids, Hnext. cbn [Nat.add] in *.
  split; [now rewrite (assigned_ids_todos cs initial)|].
  split; [exact Hids|]. split; [rewrite Hnext; lia|].
  split; [exact Hnd|]. rewrite Hids. apply todo_ids_sorted.
Qed.

(** Claim C3. When no item of the collection has the identifier,
    [complete_todo] returns a result, leaves the state as it was, says in
    its first text block that the todo was not found, and carries the
    unchanged collection in the data block, the structured content and the
    metadata. *)
Theorem complete_todo_unknown_id (id_ : jsstring) (s : state) :
  ~ In id_ (map id (todos s)) ->
  snd (complete_todo id_ s) = s
  /\ (exists data,
        content (fst (complete_todo id_ s)) =
          [ {| type := lit "text";
               text := lit "Todo " ++ id_ ++ lit " was not found." |};
            data ])
  /\ carries (fst (complete_todo id_ s)) (todos s).
Proof.
  intros H. assert (Hs : snd (complete_todo id_ s) = s)
    by (unfold complete_todo; now rewrite (find_absent _ _ H)).
  split; [exact Hs|]. split.
  - unfold complete_todo. rewrite (find_absent _ _ H). eexists. reflexivity.
  - rewrite <- Hs at 2. apply carries_complete_todo.
Qed.

Lemma complete_todo_unknown_id_witness :
  let s := snd (add_todo (lit "Buy milk") initial) in
  ~ In (lit "todo-7") (map id (todos s))
  /\ snd (complete_todo (lit "todo-7") s) = s
  /\ (exists data,
        content (fst (complete_todo (lit "todo-7") s)) =
          [ {| type := lit "text";
               text := lit "Todo " ++ lit "todo-7" ++ lit " was not found." |};
            data ])
  /\ carries (fst (complete_todo (lit "todo-7") s)) (todos s).
Proof.
  assert (H : ~ In (lit "todo-7")
                (map id (todos (snd (add_todo (lit "Buy milk") initial))))).
  { intros [H|[]]. vm_compute in H. discriminate H. }
  split; [exact H|].
  exact (complete_todo_unknown_id (lit "todo-7") _ H).
Defined.

(** Claim C4. In every state that the process can be in, when some item
    has the identifier, [complete_todo] stores a collection of the same
    length in which the item with that identifier, at its place, has
    [completed] true and the same [id] and [title], and every other place
    holds the item it held; the counter is untouched; the first text block
    confirms with the item's title, and the result carries the new
    collection in its three representations. *)
Theorem complete_todo_known_id (id_ : jsstring) (s : state) :
  reachable s ->
  In id_ (map id (todos s)) ->
  exists (i : nat) (t : todo),
    nth_error (todos s) i = Some t
    /\ id t = id_
    /\ length (todos (snd (complete_todo id_ s))) = length (todos s)
    /\ nth_error (todos (snd (complete_todo id_ s))) i
       = Some {| id := id t; title := title t; completed := true |}
    /\ (forall j, j <> i ->
          nth_error (todos (snd (complete_todo id_ s))) j
          = nth_error (todos s) j)
    /\ nextId (snd (complete_todo id_ s)) = nextId s
    /\ (exists data,
          content (fst (complete_todo id_ s)) =
            [ {| type := lit "text";
                 text := lit "Completed " ++ dquote ++ title t ++ dquote
                           ++ lit "." |};
              data ])
    /\ carries (fst (complete_todo id_ s))
               (todos (snd (complete_todo id_ s))).
Proof.
  intros Hs Hin.
  assert (Hnd : NoDup (map id (todos s)))
    by now apply well_numbered_NoDup, reachable_well_numbered.
  destruct (find_present _ _ Hin) as (t & Hfind & Ht & Hid).
  destruct (In_nth_error _ _ Ht) as [i Hi].
  exists i, t.
  assert (Htodos : todos (snd (complete_todo id_ s)) = map (mark id_) (todos s))
    by (rewrite todos_complete_todo; now rewrite Hfind).
  split; [exact Hi|]. split; [exact Hid|].
  rewrite Htodos, length_map. split; [reflexivity|].
  split; [|split; [|split; [|split]]].
  - rewrite nth_error_map, Hi. simpl. unfold mark.
    now rewrite Hid, strict_eq_refl.
  - intros j Hj. rewrite nth_error_map.
    destruct (nth_error (todos s) j) as [u|] eqn:Hu; [|reflexivity].
    simpl. f_equal. apply mark_other. intros Hu_id. apply Hj.
    symmetry. apply (proj1 (NoDup_nth_error _) Hnd).
    + rewrite length_map. apply nth_error_Some. congruence.
    + rewrite !nth_error_map, Hi, Hu. simpl. congruence.
  - apply nextId_complete_todo.
  - unfold complete_todo. rewrite Hfind. eexists. reflexivity.
  - rewrite <- Htodos. apply carries_complete_todo.
Qed.

Lemma complete_todo_known_id_witness :
  let s := snd (add_todo (lit "Buy milk") initial) in
  let id_ := lit "todo-1" in
  reachable s
  /\ In id_ (map id (todos s))
  /\ exists (i : nat) (t : todo),
       nth_error (todos s) i = Some t
       /\ id t = id_
       /\ length (todos (snd (complete_todo id_ s))) = length (todos s)
       /\ nth_error (todos (snd (complete_todo id_ s))) i
          = Some {| id := id t; title := title t; completed := true |}
       /\ (forall j, j <> i ->
             nth_error (todos (snd (complete_todo id_ s))) j
             = nth_error (todos s) j)
       /\ nextId (snd (complete_todo id_ s)) = nextId s
       /\ (exists data,
             content (fst (complete_todo id_ s)) =
               [ {| type := lit "text";
                    text := lit "Completed " ++ dquote ++ title t ++ dquote
                              ++ lit "." |};
                 data ])
       /\ carries (fst (complete_todo id_ s))
                  (todos (snd (complete_todo id_ s))).
Proof.
  assert (H : reachable (snd (add_todo (lit "Buy milk") initial)))
    by exact (reachable_handle (AddTodo (lit "Buy milk")) initial
                reachable_initial).
  assert (Hin : In (lit "todo-1")
                  (map id (todos (snd (add_todo (lit "Buy milk") initial)))))
    by (left; reflexivity).
  split; [exact H|]. split; [exact Hin|].
  exact (complete_todo_known_id (lit "todo-1") _ H Hin).
Defined.

(** Claim C5. [complete_todo] called twice in a row with the same
    identifier leaves the state that one call leaves; this holds for every
    identifier, in the collection or not. *)
Theorem complete_todo_idempotent (id_ : jsstring) (s : state) :
  snd (complete_todo id_ (snd (complete_todo id_ s)))
  = snd (complete_todo id_ s).
Proof.
  unfold complete_todo at 2 3.
  destruct (find _ (todos s)) as [t|] eqn:E; cbn [snd].
  - unfold complete_todo; cbn [todos nextId].
    apply find_some in E as [Hin Hid]. apply strict_eq_true in Hid.
    destruct (find_present id_ (map (mark id_) (todos s))) as (u & -> & _).
    { rewrite map_map, (map_ext _ id (id_mark id_)).
      rewrite <- Hid. now apply in_map. }
    cbn [snd]. f_equal.
    rewrite map_map. apply map_ext, mark_mark.
  - unfold complete_todo. now rewrite E.
Qed.

(** Claim C8. [list_todos] returns the state it was given, collection and
    counter: after any number of calls the state is the same, so every later
    call returns what it would have returned, and a sequence of calls ends
    in the same state with or without the [list_todos] calls in it. Its
    first text block gives the length of the collection. *)
Theorem list_todos_reads_only (s : state) :
  snd (list_todos s) = s
  /\ (forall n, list_todos_times n s = s)
  /\ (forall n c, handle c (list_todos_times n s) = handle c s)
  /\ (forall cs,
        run cs s = run (filter (fun c => negb (is_list_todos c)) cs) s)
  /\ (exists data,
        content (fst (list_todos s)) =
          [ {| type := lit "text";
               text := lit "You have "
                         ++ number_to_string (N.of_nat (length (todos s)))
                         ++ lit " todos." |};
            data ]).
Proof.
  split; [reflexivity|].
  split; [intros n; apply list_todos_times_id|].
  split; [intros n c; now rewrite list_todos_times_id|].
  split; [|eexists; reflexivity].
  intros cs. revert s.
  induction cs as [|c cs IH]; intros s; [reflexivity|].
  destruct c; cbn [run filter is_list_todos negb]; apply IH.
Qed.

(** The result of every call carries the collection that the call leaves
    in the state. *)
Lemma handle_carries (c : tool_call) (s : state) :
  carries (fst (handle c s)) (todos (snd (handle c s))).
Proof.
  destruct c; [apply carries_add_todo | apply carries_complete_todo
              | apply carries_list_todos].
Qed.

End Handlers.

(** * The serialisation can be read back *)

Section Serialisation.

Lemma hex_digits_value (c : N) :
  c < 65536 ->
  4096 * (c / 4096 mod 16) + 256 * (c / 256 mod 16)
    + 16 * (c / 16 mod 16) + c mod 16 = c.
Proof.
  intros H. zify. Z.to_euclidean_division_equations. lia.
Qed.

Lemma unhex_hex_digit (d : N) : d < 16 -> unhex (hex_digit d) = Some d.
Proof.
  intros H. unfold unhex, hex_digit.
  destruct (N.ltb_spec d 10) as [Hd|Hd].
  - replace ((48 <=? 48 + d) && (48 + d <=? 57)) with true
      by (symmetry; apply andb_true_iff; split; apply N.leb_le; lia).
    f_equal. lia.
  - replace ((48 <=? 87 + d) && (87 + d <=? 57)) with false
      by (symmetry; apply andb_false_iff; right; apply N.leb_gt; lia).
    replace ((97 <=? 87 + d) && (87 + d <=? 102)) with true
      by (symmetry; apply andb_true_iff; split; apply N.leb_le; lia).
    f_equal. lia.
Qed.

Lemma read_UnicodeEscape (c : code_unit) (tail : jsstring) :
  c < 65536 ->
  read_string_body (UnicodeEscape c ++ tail) = push c (read_string_body tail).
Proof.
  intros H. unfold UnicodeEscape.
  cbn [app read_string_body N.eqb Pos.eqb].
  rewrite !unhex_hex_digit by (apply N.mod_lt; discriminate).
  rewrite (hex_digits_value c H). reflexivity.
Qed.

Lemma leading_surrogate_bounds (c : code_unit) :
  is_leading_surrogate c = true -> 0xD800 <= c <= 0xDBFF.
Proof.
  unfold is_leading_surrogate. rewrite andb_true_iff, !N.leb_le. lia.
Qed.

Lemma trailing_surrogate_bounds (c : code_unit) :
  is_trailing_surrogate c = true -> 0xDC00 <= c <= 0xDFFF.
Proof.
  unfold is_trailing_surrogate. rewrite andb_true_iff, !N.leb_le. lia.
Qed.

Lemma surrogate_bounds (c : code_unit) :
  is_leading_surrogate c || is_trailing_surrogate c = true ->
  0xD800 <= c <= 0xDFFF.
Proof.
  intros H. apply orb_true_iff in H as [H|H];
    [apply leading_surrogate_bounds in H | apply trailing_surrogate_bounds in H];
    lia.
Qed.

(** Reading a code unit that stands alone gives it back. *)
Lemma read_quote_code_unit (c : code_unit) (tail : jsstring) :
  read_string_body (quote_code_unit c ++ tail)
  = push c (read_string_body tail).
Proof.
  unfold quote_code_unit.
  repeat match goal with
         | |- context [if ?x =? ?k then _ else _] =>
             destruct (N.eqb_spec x k) as [->|?]; [reflexivity|]
         end.
  destruct ((c <? 32) || is_leading_surrogate c || is_trailing_surrogate c)
    eqn:E.
  - apply read_UnicodeEscape.
    rewrite <- orb_assoc in E. apply orb_true_iff in E as [E|E].
    + apply N.ltb_lt in E. lia.
    + apply surrogate_bounds in E. lia.
  - cbn [app read_string_body].
    destruct (N.eqb_spec c 34); [contradiction|].
    destruct (N.eqb_spec c 92); [contradiction|]. reflexivity.
Qed.

Lemma read_copied_surrogate (c : code_unit) (tail : jsstring) :
  is_leading_surrogate c || is_trailing_surrogate c = true ->
  read_string_body (c :: tail) = push c (read_string_body tail).
Proof.
  intros H. apply surrogate_bounds in H. cbn [read_string_body].
  destruct (N.eqb_spec c 34); [lia|].
  destruct (N.eqb_spec c 92); [lia|]. reflexivity.
Qed.

(** Reading what [QuoteJSONString] wrote, after the opening quote, gives the
    string back together with what follows the closing quote. *)
Lemma read_quote_code_points (s rest : jsstring) :
  read_string_body (quote_code_points s ++ dquote ++ rest) = Some (s, rest).
Proof.
  remember (length s) as n eqn:Hn.
  revert s Hn. induction n as [n IH] using lt_wf_ind. intros s Hn.
  destruct s as [|c s]; [reflexivity|].
  cbn [quote_code_points].
  destruct (is_leading_surrogate c) eqn:Ec.
  - assert (Hc := leading_surrogate_bounds c Ec).
    destruct s as [|d s].
    + rewrite read_UnicodeEscape by lia. reflexivity.
    + destruct (is_trailing_surrogate d) eqn:Ed.
      * cbn [app].
        rewrite read_copied_surrogate by now rewrite Ec.
        rewrite read_copied_surrogate by (rewrite Ed; apply orb_true_r).
        rewrite (IH (length s)) by (simpl in Hn; lia || reflexivity).
        reflexivity.
      * rewrite <- app_assoc, read_UnicodeEscape by lia.
        rewrite (IH (length (d :: s))) by (simpl in *; lia || reflexivity).
        reflexivity.
  - rewrite <- app_assoc, read_quote_code_unit.
    rewrite (IH (length s)) by (simpl in Hn; lia || reflexivity).
    reflexivity.
Qed.

(** [QuoteJSONString] copies a string made of code units that need no
    escape. *)
Lemma quote_code_points_copied (s : jsstring) :
  forallb copied_by_quote s = true -> quote_code_points s = s.
Proof.
  induction s as [|c s IH]; [reflexivity|].
  cbn [forallb quote_code_points]. rewrite andb_true_iff. intros [Hc Hs].
  unfold copied_by_quote in Hc. rewrite negb_true_iff in Hc.
  repeat (apply orb_false_iff in Hc as [Hc ?]).
  replace (is_leading_surrogate c) with false by congruence.
  unfold quote_code_unit.
  replace (is_leading_surrogate c) with false by congruence.
  replace (is_trailing_surrogate c) with false by congruence.
  rewrite Hc.
  apply N.ltb_ge in Hc.
  repeat match goal with
         | |- context [if ?x =? ?k then _ else _] =>
             destruct (N.eqb_spec x k) as [?|?];
               [try lia; try congruence|]
         end.
  simpl. f_equal. auto.
Qed.

Lemma expect_app (p r : jsstring) : expect p (p ++ r) = Some r.
Proof.
  unfold expect.
  replace (starts_with p (p ++ r)) with true
    by (symmetry; apply starts_with_true; now exists r).
  now rewrite skipn_app, skipn_all, Nat.sub_diag.
Qed.

(** The text of a todo, piece by piece. *)
Lemma stringify_todo_eq (t : todo) :
  stringify_todo t =
    (lit "{" ++ QuoteJSONString (lit "id") ++ lit ":" ++ dquote)
      ++ quote_code_points (id t) ++ dquote
      ++ (lit "," ++ QuoteJSONString (lit "title") ++ lit ":" ++ dquote)
      ++ quote_code_points (title t) ++ dquote
      ++ (lit "," ++ QuoteJSONString (lit "completed") ++ lit ":")
      ++ SerializeJSONBoolean (completed t) ++ lit "}".
Proof.
  unfold stringify_todo, SerializeJSONObject, QuoteJSONString.
  cbn [map join fst snd]. repeat rewrite <- app_assoc. reflexivity.
Qed.

Lemma read_stringify_todo (t : todo) (rest : jsstring) :
  read_todo (stringify_todo t ++ rest) = Some (t, rest).
Proof.
  rewrite stringify_todo_eq. unfold read_todo.
  set (A := lit "{" ++ QuoteJSONString (lit "id") ++ lit ":" ++ dquote).
  set (B := lit "," ++ QuoteJSONString (lit "title") ++ lit ":" ++ dquote).
  set (C := lit "," ++ QuoteJSONString (lit "completed") ++ lit ":").
  rewrite <- !app_assoc.
  rewrite expect_app, read_quote_code_points, expect_app.
  rewrite read_quote_code_points, expect_app.
  destruct t as [i ti [|]]; reflexivity.
Qed.

Lemma stringify_todo_head (t : todo) :
  exists tail, stringify_todo t = 123 :: tail.
Proof. rewrite stringify_todo_eq. eexists. reflexivity. Qed.

Lemma join_cons2 (sep x y : jsstring) (l : list jsstring) :
  join sep (x :: y :: l) = x ++ sep ++ join sep (y :: l).
Proof. reflexivity. Qed.

Lemma length_join_stringify (ts : list todo) :
  (length ts <= length (join (lit ",") (map stringify_todo ts)))%nat.
Proof.
  induction ts as [|t [|u ts] IH]; [apply Nat.le_refl| |].
  - destruct (stringify_todo_head t) as [tail E]. cbn [map join]. rewrite E.
    simpl. lia.
  - cbn [map]. rewrite join_cons2. cbn [map] in IH.
    destruct (stringify_todo_head t) as [tail E]. rewrite E.
    rewrite !length_app. simpl in *. lia.
Qed.

Lemma lit_comma_app (x : jsstring) : lit "," ++ x = 44 :: x.
Proof. reflexivity. Qed.

(** Reading a non-empty array of todos gives the todos back. *)
Lemma read_todos_join (ts : list todo) :
  forall (t : todo) (fuel : nat) (rest : jsstring),
    (length (t :: ts) <= fuel)%nat ->
    read_todos fuel
      (join (lit ",") (map stringify_todo (t :: ts)) ++ lit "]" ++ rest)
    = Some (t :: ts, rest).
Proof.
  induction ts as [|u ts IH]; intros t [|fuel] rest Hfuel;
    try (simpl in Hfuel; lia).
  - cbn [map join read_todos]. rewrite read_stringify_todo. reflexivity.
  - change (map stringify_todo (t :: u :: ts))
      with (stringify_todo t :: stringify_todo u :: map stringify_todo ts).
    rewrite join_cons2. cbn [read_todos].
    rewrite <- !app_assoc, read_stringify_todo.
    rewrite lit_comma_app. cbn iota. rewrite N.eqb_refl.
    assert (IHu := IH u fuel rest). cbn [map] in IHu.
    rewrite IHu by (simpl in *; lia). reflexivity.
Qed.

(** The text of a payload: a fixed opening, the todos, a fixed closing. *)
Lemma JSON_stringify_eq (ts : list todo) :
  JSON_stringify {| tasks := ts |} =
    (lit "{" ++ QuoteJSONString (lit "tasks") ++ lit ":[")
      ++ join (lit ",") (map stringify_todo ts) ++ lit "]}".
Proof.
  unfold JSON_stringify, SerializeJSONObject, SerializeJSONArray.
  cbn [tasks map join fst snd].
  destruct ts as [|t ts].
  - reflexivity.
  - set (j := join (lit ",") (map stringify_todo (t :: ts))).
    destruct (map stringify_todo (t :: ts)) eqn:E; [discriminate|].
    rewrite <- !app_assoc. reflexivity.
Qed.

Lemma read_JSON_stringify (ts : list todo) (rest : jsstring) :
  read_payload (JSON_stringify {| tasks := ts |} ++ rest)
  = Some ({| tasks := ts |}, rest).
Proof.
  rewrite JSON_stringify_eq. unfold read_payload.
  set (A := lit "{" ++ QuoteJSONString (lit "tasks") ++ lit ":[").
  rewrite <- !app_assoc, expect_app.
  destruct ts as [|t ts].
  - reflexivity.
  - replace (expect (lit "]}") _) with (@None jsstring).
    + change (lit "]}" ++ rest) with (lit "]" ++ lit "}" ++ rest).
      rewrite read_todos_join.
      * reflexivity.
      * rewrite !length_app.
        assert (H := length_join_stringify (t :: ts)). lia.
    + destruct ts as [|u ts];
        [cbn [map join] | change (map stringify_todo (t :: u :: ts))
           with (stringify_todo t :: stringify_todo u :: map stringify_todo ts);
         rewrite join_cons2];
        destruct (stringify_todo_head t) as [tail ->]; reflexivity.
Qed.

(** The data block of a result reads back as the collection it was made
    from. *)
Lemma read_widget_data_block (ts : list todo) :
  read_widget_data
    (lit "<widget-data>" ++ JSON_stringify {| tasks := ts |}
       ++ lit "</widget-data>")
  = Some {| tasks := ts |}.
Proof.
  unfold read_widget_data.
  rewrite expect_app, read_JSON_stringify, strict_eq_refl. reflexivity.
Qed.

(** Hence two collections with the same data block are the same. *)
Lemma JSON_stringify_inj (ts ts' : list todo) :
  JSON_stringify {| tasks := ts |} = JSON_stringify {| tasks := ts' |} ->
  ts = ts'.
Proof.
  intros H.
  assert (E := read_JSON_stringify ts []). rewrite H in E.
  rewrite read_JSON_stringify in E. now injection E.
Qed.

End Serialisation.

(** * What the results carry *)

Section Results.

(** Claim C9. The result of every call ([add_todo], [complete_todo] with a
    known or an unknown identifier, [list_todos]) carries the collection
    that the call leaves in the state three times: in a second text block
    made of the [<widget-data>] tags around the JSON text of [{ tasks }],
    in the structured content [{ tasks }], and in [_meta] under the key
    [openai/widgetData]. The text block reads back as that same collection,
    so the three agree. *)
Theorem results_carry_collection (c : tool_call) (s : state) :
  let r := fst (handle c s) in
  let ts := todos (snd (handle c s)) in
  carries r ts
  /\ exists first data,
       content r = [first; data]
       /\ read_widget_data (text data) = Some (structuredContent r)
       /\ get (_meta r) (lit "openai/widgetData") = Some (structuredContent r)
       /\ tasks (structuredContent r) = ts.
Proof.
  intros r ts. assert (H := handle_carries c s). fold r ts in H.
  split; [exact H|].
  destruct H as ((first & Hc & _) & Hsc & Hm).
  eexists first, _. split; [exact Hc|]. rewrite Hsc. cbn [text tasks].
  split; [apply read_widget_data_block|]. split; [exact Hm | reflexivity].
Qed.

Lemma join_snoc (sep x : jsstring) (xs : list jsstring) :
  exists pre, join sep (xs ++ [x]) = pre ++ x.
Proof.
  induction xs as [|y xs [pre IH]].
  - now exists [].
  - exists (y ++ sep ++ pre). cbn [app].
    destruct (xs ++ [x]) as [|z zs] eqn:E.
    + now destruct xs.
    + rewrite join_cons2, IH, <- !app_assoc. reflexivity.
Qed.

(** The quoted title of the last todo stands in the text of the payload. *)
Lemma JSON_stringify_last_title (ts : list todo) (t : todo) :
  exists pre post,
    JSON_stringify {| tasks := ts ++ [t] |}
    = pre ++ QuoteJSONString (title t) ++ post.
Proof.
  rewrite JSON_stringify_eq, map_app. cbn [map].
  destruct (join_snoc (lit ",") (stringify_todo t) (map stringify_todo ts))
    as [pre ->].
  rewrite stringify_todo_eq.
  exists ((lit "{" ++ QuoteJSONString (lit "tasks") ++ lit ":[") ++ pre
            ++ (lit "{" ++ QuoteJSONString (lit "id") ++ lit ":" ++ dquote)
            ++ quote_code_points (id t) ++ dquote
            ++ lit "," ++ QuoteJSONString (lit "title") ++ lit ":"),
         ((lit "," ++ QuoteJSONString (lit "completed") ++ lit ":")
            ++ SerializeJSONBoolean (completed t) ++ lit "}" ++ lit "]}").
  unfold QuoteJSONString. rewrite <- !app_assoc. reflexivity.
Qed.

(** Claim C10, as the code has it. [add_todo] stores the title as it is
    given and copies it between double quotes into the confirmation text.
    In the data block the title stands as [JSON.stringify] quotes it; the
    quoted form is the title itself between double quotes when the title
    has no control character, double quote, backslash or surrogate, which
    covers HTML markup and the closing tag of the block. *)
Theorem add_todo_title_stored_and_quoted (title_ : jsstring) (s : state) :
  add_todo_inputSchema title_ = true ->
  (exists t, todos (snd (add_todo title_ s)) = todos s ++ [t]
             /\ title t = title_)
  /\ (exists data pre post,
        content (fst (add_todo title_ s)) =
          [ {| type := lit "text";
               text := lit "Added " ++ dquote ++ title_ ++ dquote
                         ++ lit "." |};
            data ]
        /\ text data =
             lit "<widget-data>" ++ pre ++ QuoteJSONString title_ ++ post
               ++ lit "</widget-data>")
  /\ (forallb copied_by_quote title_ = true ->
      QuoteJSONString title_ = dquote ++ title_ ++ dquote).
Proof.
  intros _. split; [|split].
  - eexists. split; reflexivity.
  - unfold add_todo; cbn [fst content].
    match goal with
    | |- context [JSON_stringify {| tasks := ?l ++ [?t] |}] =>
        destruct (JSON_stringify_last_title l t) as (pre & post & E)
    end.
    eexists _, pre, post. split; [reflexivity|]. cbn [text].
    rewrite E. cbn [title]. rewrite <- !app_assoc. reflexivity.
  - intros H. unfold QuoteJSONString.
    now rewrite quote_code_points_copied.
Qed.

Lemma add_todo_title_stored_and_quoted_witness :
  let title_ := lit "</widget-data><b>milk</b>" in
  let s := initial in
  add_todo_inputSchema title_ = true
  /\ (exists t, todos (snd (add_todo title_ s)) = todos s ++ [t]
                /\ title t = title_)
  /\ (exists data pre post,
        content (fst (add_todo title_ s)) =
          [ {| type := lit "text";
               text := lit "Added " ++ dquote ++ title_ ++ dquote
                         ++ lit "." |};
            data ]
        /\ text data =
             lit "<widget-data>" ++ pre ++ QuoteJSONString title_ ++ post
               ++ lit "</widget-data>")
  /\ (forallb copied_by_quote title_ = true ->
      QuoteJSONString title_ = dquote ++ title_ ++ dquote).
Proof.
  split; [reflexivity|].
  exact (add_todo_title_stored_and_quoted
           (lit "</widget-data><b>milk</b>") initial eq_refl).
Defined.

(** Claim C10 fails as stated: the title made of the letter a, a backslash
    and the letter b passes the schema, and the data block of the result
    does not contain it, because [JSON.stringify] doubles the backslash. *)
Lemma add_todo_title_not_verbatim_in_data :
  let title_ := lit "a\b" in
  add_todo_inputSchema title_ = true
  /\ exists first data,
       content (fst (add_todo title_ initial)) = [first; data]
       /\ includes (text data) title_ = false
       /\ ~ (exists pre post, text data = pre ++ title_ ++ post).
Proof.
  split; [reflexivity|]. eexists _, _. split; [reflexivity|].
  match goal with
  | |- includes ?block ?t = false /\ _ =>
      assert (H : includes block t = false) by (vm_compute; reflexivity)
  end.
  split; [exact H|].
  intros Hex. apply includes_true in Hex.
  rewrite Hex in H. discriminate H.
Qed.

End Results.

(** * The post-processor and the build *)

Section PostProcessor.

Lemma indexOf_bound (s p : jsstring) (i : nat) :
  indexOf s p = Some i -> (i + length p <= length s)%nat.
Proof.
  revert i; induction s as [|c s IH]; intros i; rewrite indexOf_unfold.
  - destruct (starts_with p []) eqn:E; [|discriminate].
    intros [= <-]. apply starts_with_true in E as [r E].
    symmetry in E. apply app_eq_nil in E as [-> _]. apply Nat.le_refl.
  - destruct (starts_with p (c :: s)) eqn:E.
    + intros [= <-]. apply starts_with_true in E as [r E].
      rewrite E, length_app. lia.
    + destruct (indexOf s p) as [k|]; [|discriminate].
      intros [= <-]. specialize (IH k eq_refl). simpl. lia.
Qed.

(** The text that [replace] puts in has no dollar sign: it is inserted as
    it is written. *)
Lemma replacement_plain :
  forallb (fun c => negb (c =? 36)) (dataInjectionScript ++ closing_body)
  = true.
Proof. vm_compute. reflexivity. Qed.

Lemma processWidgetHtml_found (html : jsstring) (i : nat) :
  indexOf html closing_body = Some i ->
  processWidgetHtml html =
    firstn i html ++ dataInjectionScript ++ closing_body
      ++ skipn (i + length closing_body) html.
Proof.
  intros H. unfold processWidgetHtml, includes, replace. rewrite H.
  rewrite GetSubstitution_plain by exact replacement_plain.
  now rewrite <- app_assoc.
Qed.

Lemma processWidgetHtml_not_found (html : jsstring) :
  indexOf html closing_body = None ->
  processWidgetHtml html = html ++ dataInjectionScript.
Proof.
  intros H. unfold processWidgetHtml, includes. now rewrite H.
Qed.

(** Each application makes the text longer by the length of the script. *)
Lemma length_processWidgetHtml (html : jsstring) :
  length (processWidgetHtml html)
  = (length html + length dataInjectionScript)%nat.
Proof.
  destruct (indexOf html closing_body) as [i|] eqn:E.
  - rewrite (processWidgetHtml_found _ _ E).
    destruct (indexOf_Some _ _ _ E) as [Hs _].
    rewrite Hs at 3. rewrite !length_app. lia.
  - rewrite (processWidgetHtml_not_found _ E). apply length_app.
Qed.

Lemma starts_with_app (p u x : jsstring) :
  starts_with p u = true -> starts_with p (u ++ x) = true.
Proof.
  intros H. apply starts_with_true in H as [r ->].
  apply starts_with_true. exists (r ++ x). now rewrite app_assoc.
Qed.

(** An occurrence that starts in [u] and reaches into [x]. *)
Lemma starts_with_split (p u x : jsstring) :
  starts_with p (u ++ x) = true ->
  starts_with p u = true
  \/ exists p2, p = u ++ p2 /\ p2 <> [] /\ starts_with p2 x = true.
Proof.
  revert p; induction u as [|c u IH]; intros p H.
  - destruct p as [|y p]; [now left|]. right. exists (y :: p).
    repeat split; [discriminate | exact H].
  - destruct p as [|y p]; [now left|]. simpl in H.
    apply andb_true_iff in H as [Hy H]. apply N.eqb_eq in Hy. subst y.
    destruct (IH p H) as [Hl|(p2 & -> & Hp2 & Hx)].
    + left. simpl. now rewrite N.eqb_refl.
    + right. now exists p2.
Qed.

Lemma occurrence_includes (s p : jsstring) (j : nat) :
  starts_with p (skipn j s) = true -> includes s p = true.
Proof.
  intros H. apply starts_with_true in H as [r H]. apply includes_true.
  exists (firstn j s), r. now rewrite <- H, firstn_skipn.
Qed.

Lemma indexOf_Some_starts (s p : jsstring) (i : nat) :
  indexOf s p = Some i -> starts_with p (skipn i s) = true.
Proof.
  revert i; induction s as [|c s IH]; intros i; rewrite indexOf_unfold.
  - destruct (starts_with p []) eqn:E; [|discriminate]. now intros [= <-].
  - destruct (starts_with p (c :: s)) eqn:E; [now intros [= <-]|].
    destruct (indexOf s p) as [k|]; [|discriminate].
    intros [= <-]. now apply IH.
Qed.

(** The least place where the pattern occurs is the index found. *)
Lemma indexOf_first (s p : jsstring) (i : nat) :
  (i <= length s)%nat ->
  starts_with p (skipn i s) = true ->
  (forall j, (j < i)%nat -> starts_with p (skipn j s) = false) ->
  indexOf s p = Some i.
Proof.
  revert i; induction s as [|c s IH]; intros i Hi Hocc Hmin;
    rewrite indexOf_unfold.
  - assert (i = 0%nat) by (simpl in Hi; lia). subst i.
    simpl in Hocc. now rewrite Hocc.
  - destruct i as [|i].
    + simpl in Hocc. now rewrite Hocc.
    + assert (H0 := Hmin 0%nat). cbn [skipn] in H0. rewrite H0 by lia.
      rewrite (IH i); [reflexivity | simpl in Hi; lia | exact Hocc |].
      intros j Hj. apply (Hmin (S j)). lia.
Qed.

(** Inserting a text before the first occurrence of a pattern moves the
    first occurrence behind the text, when the text does not contain the
    pattern and begins and ends with code units foreign to the pattern. *)
Lemma indexOf_after_insert
  (p ins pre rest ins_tail ins_init : jsstring) (a z : code_unit) :
  ins = a :: ins_tail ->
  ins = ins_init ++ [z] ->
  ~ In a p -> ~ In z p ->
  includes ins p = false ->
  (forall j, (j < length pre)%nat ->
             starts_with p (skipn j (pre ++ p ++ rest)) = false) ->
  indexOf (pre ++ ins ++ p ++ rest) p = Some (length pre + length ins)%nat.
Proof.
  intros Ha Hz Hap Hzp Hins Hmin. apply indexOf_first.
  - rewrite !length_app. lia.
  - rewrite app_assoc, <- length_app, skipn_app, skipn_all, Nat.sub_diag.
    apply starts_with_true. now exists rest.
  - intros j Hj.
    destruct (starts_with p (skipn j (pre ++ ins ++ p ++ rest))) eqn:E;
      [exfalso|reflexivity].
    destruct (Nat.lt_ge_cases j (length pre)) as [Hlt|Hge].
    + rewrite skipn_app in E.
      replace (j - length pre)%nat with 0%nat in E by lia.
      cbn [skipn] in E.
      apply starts_with_split in E as [E|(p2 & Hp & Hp2 & E)].
      * specialize (Hmin j Hlt). rewrite skipn_app in Hmin.
        replace (j - length pre)%nat with 0%nat in Hmin by lia.
        cbn [skipn] in Hmin.
        rewrite (starts_with_app _ _ (p ++ rest) E) in Hmin. discriminate.
      * destruct p2 as [|c p2]; [contradiction|].
        rewrite Ha in E. simpl in E.
        apply andb_true_iff in E as [E _]. apply N.eqb_eq in E. subst c.
        apply Hap. rewrite Hp. apply in_elt.
    + rewrite skipn_app, (skipn_all2 pre) in E by lia. cbn [app] in E.
      rewrite skipn_app in E.
      replace (j - length pre - length ins)%nat with 0%nat in E by lia.
      cbn [skipn] in E.
      apply starts_with_split in E as [E|(p2 & Hp & _ & _)].
      * apply occurrence_includes in E. congruence.
      * apply Hzp. rewrite Hp, Hz, skipn_app.
        assert (Hlen : length ins = S (length ins_init))
          by (rewrite Hz, length_app; simpl; lia).
        replace (j - length pre - length ins_init)%nat with 0%nat by lia.
        cbn [skipn]. rewrite <- !app_assoc. apply in_elt.
Qed.

(** Appending such a text to a string without the pattern gives a string
    without the pattern. *)
Lemma indexOf_append_None (p ins h ins_tail : jsstring) (a : code_unit) :
  ins = a :: ins_tail ->
  ~ In a p ->
  includes ins p = false ->
  indexOf h p = None ->
  indexOf (h ++ ins) p = None.
Proof.
  intros Ha Hap Hins Hh.
  destruct (indexOf (h ++ ins) p) as [j|] eqn:E; [exfalso|reflexivity].
  apply indexOf_Some_starts in E. rewrite skipn_app in E.
  apply starts_with_split in E as [E|(p2 & Hp & Hp2 & E)].
  - apply occurrence_includes in E. unfold includes in E.
    rewrite Hh in E. discriminate.
  - destruct (Nat.lt_ge_cases j (length h)) as [Hlt|Hge].
    + replace (j - length h)%nat with 0%nat in E by lia. cbn [skipn] in E.
      destruct p2 as [|c p2]; [contradiction|].
      rewrite Ha in E. simpl in E.
      apply andb_true_iff in E as [E _]. apply N.eqb_eq in E. subst c.
      apply Hap. rewrite Hp. apply in_elt.
    + rewrite skipn_all2 in Hp by lia. cbn [app] in Hp. subst p2.
      apply occurrence_includes in E. congruence.
Qed.

Lemma script_head : exists t, dataInjectionScript = 10 :: t.
Proof. eexists. vm_compute. reflexivity. Qed.

Lemma script_last : exists i, dataInjectionScript = i ++ [32].
Proof. exists (removelast dataInjectionScript). vm_compute. reflexivity. Qed.

Lemma script_without_closing_body :
  includes dataInjectionScript closing_body = false.
Proof. vm_compute. reflexivity. Qed.

Lemma closing_body_chars : ~ In 10 closing_body /\ ~ In 32 closing_body.
Proof.
  split; intros H; vm_compute in H;
    repeat (destruct H as [H|H]; [discriminate H|]); exact H.
Qed.

Lemma processWidgetHtml_at (pre rest : jsstring) :
  indexOf (pre ++ closing_body ++ rest) closing_body = Some (length pre) ->
  processWidgetHtml (pre ++ closing_body ++ rest)
  = pre ++ dataInjectionScript ++ closing_body ++ rest.
Proof.
  intros H. rewrite (processWidgetHtml_found _ _ H).
  rewrite firstn_app, firstn_all, Nat.sub_diag. cbn [firstn].
  rewrite app_nil_r. do 3 f_equal.
  rewrite app_assoc, <- length_app, skipn_app, skipn_all, Nat.sub_diag.
  reflexivity.
Qed.


Lemma starts_with_length (p s : jsstring) :
  starts_with p s = true -> (length p <= length s)%nat.
Proof.
  intros H. apply starts_with_true in H as [r ->]. rewrite length_app. lia.
Qed.

Lemma starts_with_app_short (p a b : jsstring) :
  starts_with p (a ++ b) = true ->
  (length p <= length a)%nat ->
  starts_with p a = true.
Proof.
  intros H Hl. apply starts_with_split in H as [H|(p2 & -> & Hp2 & _)];
    [exact H|].
  rewrite length_app in Hl. destruct p2; [contradiction|simpl in Hl; lia].
Qed.

Lemma includes_app_l (a b p : jsstring) :
  includes a p = true -> includes (a ++ b) p = true.
Proof.
  intros H. apply includes_true in H as (x & y & ->). apply includes_true.
  exists x, (y ++ b). now rewrite <- !app_assoc.
Qed.

Lemma includes_app_r (a b p : jsstring) :
  includes b p = true -> includes (a ++ b) p = true.
Proof.
  intros H. apply includes_true in H as (x & y & ->). apply includes_true.
  exists (a ++ x), y. now rewrite <- !app_assoc.
Qed.

Lemma includes_firstn (s p : jsstring) (k : nat) :
  includes s p = true -> includes s (firstn k p) = true.
Proof.
  intros H. apply includes_true in H as (x & y & ->). apply includes_true.
  exists x, (skipn k p ++ y).
  now rewrite (app_assoc (firstn k p)), firstn_skipn.
Qed.

Lemma filter_none {A : Type} (f : A -> bool) (l : list A) :
  (forall x, In x l -> f x = false) -> filter f l = [].
Proof.
  induction l as [|a l IH]; intros H; [reflexivity|]. cbn [filter].
  rewrite (H a (or_introl eq_refl)). apply IH. intros x Hx. apply H. now right.
Qed.

(** A list without repetition holds the only element that passes a test
    once. *)
Lemma filter_unique {A : Type} (f : A -> bool) (l : list A) (k : A) :
  NoDup l -> In k l -> f k = true ->
  (forall x, f x = true -> x = k) ->
  filter f l = [k].
Proof.
  intros Hnd Hin Hk Hone. induction l as [|a l IH]; [contradiction|].
  inversion Hnd as [|? ? Ha Hnd']; subst. cbn [filter].
  destruct Hin as [->|Hin].
  - rewrite Hk. f_equal. apply filter_none. intros x Hx.
    destruct (f x) eqn:E; [|reflexivity].
    apply Hone in E. subst x. contradiction.
  - destruct (f a) eqn:E.
    + apply Hone in E. subst a. contradiction.
    + now apply IH.
Qed.

Lemma length_script : length dataInjectionScript = 1818%nat.
Proof. vm_compute. reflexivity. Qed.

(** The script has one beginning that is also an end: its first three
    code units, a line feed and two spaces. *)
Lemma script_borders (k : nat) :
  (1 <= k < 1818)%nat ->
  firstn k dataInjectionScript = skipn (1818 - k) dataInjectionScript ->
  k = 3%nat.
Proof.
  intros Hk H.
  assert (Hall :
            forallb
              (fun k =>
                 negb (strict_eq (firstn k dataInjectionScript)
                                 (skipn (1818 - k) dataInjectionScript))
                 || (k =? 3)%nat)
              (seq 1 1817) = true)
    by (vm_compute; reflexivity).
  rewrite forallb_forall in Hall.
  assert (Hin : In k (seq 1 1817)) by (apply in_seq; lia).
  apply Hall in Hin. rewrite H, strict_eq_refl in Hin.
  now apply Nat.eqb_eq in Hin.
Qed.

Lemma script_from_3 : exists t, skipn 3 dataInjectionScript = 32 :: t.
Proof. eexists. vm_compute. reflexivity. Qed.

Lemma closing_body_head : exists t, closing_body = 60 :: t.
Proof. eexists. reflexivity. Qed.

(** In a processed page whose original held no copy of the script less its
    last three code units, the script occurs at the place of the insertion
    and nowhere else. *)
Lemma script_occurrence_place (pre rest : jsstring) (j : nat) :
  rest = [] \/ (exists post, rest = closing_body ++ post) ->
  includes (pre ++ rest) (firstn 1815 dataInjectionScript) = false ->
  starts_with dataInjectionScript
    (skipn j (pre ++ dataInjectionScript ++ rest)) = true ->
  j = length pre.
Proof.
  intros Hrest Hno Hocc.
  assert (HL := length_script).
  assert (Hno' : forall x, includes (pre ++ rest) dataInjectionScript = true
                           -> x)
    by (intros x H; apply (includes_firstn _ _ 1815) in H; congruence).
  destruct (Nat.le_gt_cases j (length pre)) as [Hle|Hgt].
  - rewrite skipn_app in Hocc.
    replace (j - length pre)%nat with 0%nat in Hocc by lia.
    cbn [skipn] in Hocc.
    assert (Hu : length (skipn j pre) = (length pre - j)%nat)
      by apply length_skipn.
    apply starts_with_split in Hocc as [Hocc|(p2 & Hs & Hp2 & Hocc)].
    + apply occurrence_includes in Hocc.
      apply Hno'. now apply includes_app_l.
    + destruct (skipn j pre) as [|c u] eqn:Eu; [simpl in Hu; lia|].
      exfalso.
      assert (Hlen : (length (c :: u) + length p2 = 1818)%nat)
        by (rewrite <- HL, Hs at 1; now rewrite length_app).
      assert (Hk : (1 <= length p2 < 1818)%nat)
        by (destruct p2; [contradiction|simpl in *; lia]).
      apply starts_with_app_short in Hocc; [|lia].
      apply starts_with_true in Hocc as [r Hr].
      assert (H3 : length p2 = 3%nat).
      { apply script_borders; [exact Hk|].
        rewrite Hr at 1. rewrite firstn_app, firstn_all, Nat.sub_diag.
        cbn [firstn]. rewrite app_nil_r.
        replace (1818 - length p2)%nat with (length (c :: u)) by lia.
        rewrite Hs at 1. now rewrite skipn_app, skipn_all, Nat.sub_diag. }
      assert (Hfirst : firstn 1815 dataInjectionScript = c :: u).
      { replace 1815%nat with (length (c :: u)) by lia.
        rewrite Hs at 1. rewrite firstn_app, firstn_all, Nat.sub_diag.
        cbn [firstn]. now rewrite app_nil_r. }
      rewrite Hfirst in Hno.
      enough (includes (pre ++ rest) (c :: u) = true) by congruence.
      apply includes_app_l, includes_true.
      exists (firstn j pre), []. now rewrite app_nil_r, <- Eu, firstn_skipn.
  - exfalso. rewrite skipn_app, (skipn_all2 pre) in Hocc by lia.
    cbn [app] in Hocc. rewrite skipn_app in Hocc.
    remember (j - length pre)%nat as d eqn:Hd.
    destruct (Nat.le_gt_cases 1818 d) as [Hbig|Hsmall].
    + rewrite (skipn_all2 dataInjectionScript) in Hocc by lia.
      cbn [app] in Hocc. apply occurrence_includes in Hocc.
      apply Hno'. now apply includes_app_r.
    + replace (d - length dataInjectionScript)%nat with 0%nat in Hocc by lia.
      cbn [skipn] in Hocc.
      assert (Hu : length (skipn d dataInjectionScript) = (1818 - d)%nat)
        by (rewrite length_skipn; lia).
      apply starts_with_split in Hocc as [Hocc|(p2 & Hs & Hp2 & Hocc)].
      * apply starts_with_length in Hocc. lia.
      * assert (H3 : (1818 - d = 3)%nat).
        { apply script_borders; [lia|].
          replace (1818 - (1818 - d))%nat with d by lia.
          rewrite Hs at 1. rewrite <- Hu.
          rewrite firstn_app, firstn_all, Nat.sub_diag.
          cbn [firstn]. now rewrite app_nil_r. }
        assert (Hp : p2 = skipn 3 dataInjectionScript).
        { rewrite Hs at 1. replace 3%nat with
            (length (skipn d dataInjectionScript)) by lia.
          now rewrite skipn_app, skipn_all, Nat.sub_diag. }
        destruct script_from_3 as [t Ht]. rewrite Ht in Hp. subst p2.
        destruct Hrest as [->|[post ->]]; [discriminate Hocc|].
        destruct closing_body_head as [t' Hcb]. rewrite Hcb in Hocc.
        discriminate Hocc.
Qed.

Lemma script_occurs_once (pre rest : jsstring) :
  rest = [] \/ (exists post, rest = closing_body ++ post) ->
  includes (pre ++ rest) (firstn 1815 dataInjectionScript) = false ->
  occurrences (pre ++ dataInjectionScript ++ rest) dataInjectionScript
  = [length pre].
Proof.
  intros Hrest Hno. unfold occurrences. apply filter_unique.
  - apply seq_NoDup.
  - apply in_seq. rewrite !length_app. lia.
  - rewrite skipn_app, skipn_all, Nat.sub_diag. cbn [app skipn].
    apply starts_with_true. now exists rest.
  - intros j Hj. exact (script_occurrence_place pre rest j Hrest Hno Hj).
Qed.

(** Claim C6, as the code has it. When the text contains [</body>],
    [processWidgetHtml] puts the script right before the first occurrence
    and keeps what stands before and after it; when it does not, the script
    goes at the end, after the whole text. Either way one block is inserted:
    the result contains the script and is longer than the text by the length
    of the script. The result contains the script exactly once when the
    text holds no copy of the script less its last three code units. *)
Theorem processWidgetHtml_inserts_script (html : jsstring) :
  (includes html closing_body = true ->
   exists pre post,
     html = pre ++ closing_body ++ post
     /\ indexOf html closing_body = Some (length pre)
     /\ processWidgetHtml html
        = pre ++ dataInjectionScript ++ closing_body ++ post)
  /\ (includes html closing_body = false ->
      processWidgetHtml html = html ++ dataInjectionScript)
  /\ includes (processWidgetHtml html) dataInjectionScript = true
  /\ length (processWidgetHtml html)
     = (length html + length dataInjectionScript)%nat
  /\ (includes html (firstn 1815 dataInjectionScript) = false ->
      count_occurrences (processWidgetHtml html) dataInjectionScript
      = 1%nat).
Proof.
  split; [|split; [|split; [|split; [apply length_processWidgetHtml|]]]].
  - unfold includes. destruct (indexOf html closing_body) as [i|] eqn:E;
      [intros _|discriminate].
    exists (firstn i html), (skipn (i + length closing_body) html).
    destruct (indexOf_Some _ _ _ E) as [Hs _].
    assert (Hi := indexOf_bound _ _ _ E).
    split; [exact Hs|]. split.
    + rewrite length_firstn, Nat.min_l by lia. reflexivity.
    + now apply processWidgetHtml_found.
  - unfold includes. destruct (indexOf html closing_body) eqn:E;
      [discriminate|intros _].
    now apply processWidgetHtml_not_found.
  - apply includes_true.
    destruct (indexOf html closing_body) as [i|] eqn:E.
    + rewrite (processWidgetHtml_found _ _ E). eauto.
    + rewrite (processWidgetHtml_not_found _ E).
      exists html, []. now rewrite app_nil_r.
  - intros Hno. unfold count_occurrences.
    destruct (indexOf html closing_body) as [i|] eqn:E.
    + rewrite (processWidgetHtml_found _ _ E).
      destruct (indexOf_Some _ _ _ E) as [Hs _].
      rewrite Hs in Hno at 1.
      rewrite script_occurs_once; [reflexivity | right; eauto | exact Hno].
    + rewrite (processWidgetHtml_not_found _ E).
      rewrite <- (app_nil_r dataInjectionScript) at 1.
      rewrite script_occurs_once;
        [reflexivity | now left | now rewrite app_nil_r].
Qed.

Lemma processWidgetHtml_inserts_script_witness :
  let html := lit "<html><body><p>Todo</p></body></html>" in
  includes html closing_body = true
  /\ includes (lit "<p>Todo</p>") closing_body = false
  /\ includes html (firstn 1815 dataInjectionScript) = false
  /\ (exists pre post,
        html = pre ++ closing_body ++ post
        /\ indexOf html closing_body = Some (length pre)
        /\ processWidgetHtml html
           = pre ++ dataInjectionScript ++ closing_body ++ post)
  /\ processWidgetHtml (lit "<p>Todo</p>")
     = lit "<p>Todo</p>" ++ dataInjectionScript
  /\ count_occurrences (processWidgetHtml html) dataInjectionScript = 1%nat.
Proof.
  split; [reflexivity|]. split; [reflexivity|].
  split; [vm_compute; reflexivity|]. split; [|split].
  - exact (proj1 (processWidgetHtml_inserts_script
                    (lit "<html><body><p>Todo</p></body></html>")) eq_refl).
  - exact (proj1 (proj2 (processWidgetHtml_inserts_script (lit "<p>Todo</p>")))
             eq_refl).
  - apply (proj2 (proj2 (proj2 (proj2
             (processWidgetHtml_inserts_script
                (lit "<html><body><p>Todo</p></body></html>")))))).
    vm_compute. reflexivity.
Defined.

(** Claim C6 fails as stated: a page that was built before holds the
    script and a closing body tag, and the result for it holds the script
    twice, not once. *)
Lemma processWidgetHtml_two_scripts_in_output :
  let html := lit "<body>" ++ dataInjectionScript ++ lit "</body>" in
  includes html closing_body = true
  /\ processWidgetHtml html
     = lit "<body>" ++ dataInjectionScript ++ dataInjectionScript
         ++ lit "</body>"
  /\ count_occurrences (processWidgetHtml html) dataInjectionScript = 2%nat.
Proof.
  split; [vm_compute; reflexivity|].
  split; vm_compute; reflexivity.
Qed.

(** The condition on the page cannot be weakened to a page without the
    script: a page that ends, before its closing tag, in
    the script less its last three code units holds no script, and its
    result holds two that overlap. *)
Remark script_less_three_gives_two :
  let html := firstn 1815 dataInjectionScript ++ lit "</body>" in
  includes html dataInjectionScript = false
  /\ occurrences (processWidgetHtml html) dataInjectionScript
     = [0%nat; 1815%nat].
Proof. split; vm_compute; reflexivity. Qed.



End PostProcessor.

(** * Sequences of calls *)

Section Sequences.

(** Whether the identifier is found or not, the collection that
    [complete_todo] leaves is the old one mapped through [mark]. *)
Lemma complete_todo_state (id_ : jsstring) (s : state) :
  snd (complete_todo id_ s)
  = {| todos := map (mark id_) (todos s); nextId := nextId s |}.
Proof.
  unfold complete_todo.
  destruct (find _ (todos s)) eqn:E; [reflexivity|]. cbn [snd].
  destruct s as [ts n]. cbn [todos nextId] in *. f_equal.
  rewrite <- (map_id ts) at 1. apply map_ext_in. intros t Ht.
  apply (find_none _ _ E) in Ht. unfold mark. now rewrite Ht.
Qed.

Lemma mark_comm (a b : jsstring) (t : todo) :
  mark a (mark b t) = mark b (mark a t).
Proof.
  unfold mark.
  destruct (strict_eq (id t) a) eqn:Ea, (strict_eq (id t) b) eqn:Eb;
    cbn [id]; rewrite ?Ea, ?Eb; reflexivity.
Qed.

Lemma title_mark (id_ : jsstring) (t : todo) : title (mark id_ t) = title t.
Proof. unfold mark. now destruct (strict_eq (id t) id_). Qed.

Lemma completed_mark (id_ : jsstring) (t : todo) :
  completed (mark id_ t) = completed t || strict_eq (id t) id_.
Proof.
  unfold mark. destruct (strict_eq (id t) id_); cbn [completed];
    [now rewrite orb_true_r | now rewrite orb_false_r].
Qed.

(** One call keeps every item at its place, with its identifier and title,
    and does not take a completion back. *)
Lemma handle_keeps_item (c : tool_call) (s : state) (i : nat) (t : todo) :
  nth_error (todos s) i = Some t ->
  exists t', nth_error (todos (snd (handle c s))) i = Some t'
             /\ id t' = id t /\ title t' = title t
             /\ (completed t = true -> completed t' = true).
Proof.
  intros H. destruct c as [title_|id_|]; cbn [handle].
  - exists t. cbn [add_todo snd todos].
    rewrite nth_error_app1 by (apply nth_error_Some; congruence). auto.
  - exists (mark id_ t). rewrite complete_todo_state. cbn [todos].
    rewrite nth_error_map, H. cbn [option_map].
    rewrite id_mark, title_mark, completed_mark.
    repeat split. now intros ->.
  - exists t. auto.
Qed.

Lemma run_keeps_item (cs : list tool_call) (s : state) (i : nat) (t : todo) :
  nth_error (todos s) i = Some t ->
  exists t', nth_error (todos (run cs s)) i = Some t'
             /\ id t' = id t /\ title t' = title t
             /\ (completed t = true -> completed t' = true).
Proof.
  revert s t; induction cs as [|c cs IH]; intros s t H; cbn [run].
  - exists t. auto.
  - destruct (handle_keeps_item c s i t H) as (t1 & H1 & Hid & Htitle & Hc).
    destruct (IH _ _ H1) as (t2 & H2 & Hid2 & Htitle2 & Hc2).
    exists t2. repeat split; try congruence. auto.
Qed.

(** With pairwise distinct identifiers, looking an item up by its
    identifier finds that item. *)
Lemma find_by_id (l : list todo) (i : nat) (t : todo) :
  NoDup (map id l) ->
  nth_error l i = Some t ->
  find (fun task => strict_eq (id task) (id t)) l = Some t.
Proof.
  intros Hnd Hi.
  destruct (find_present (id t) l) as (u & Hfind & Hu & Hid).
  { apply in_map, (nth_error_In _ _ Hi). }
  rewrite Hfind. f_equal.
  destruct (In_nth_error _ _ Hu) as [j Hj].
  assert (j = i).
  { apply (proj1 (NoDup_nth_error _) Hnd).
    - rewrite length_map. apply nth_error_Some. congruence.
    - rewrite !nth_error_map, Hi, Hj. cbn. now rewrite Hid. }
  subst j. congruence.
Qed.

Lemma length_todos_handle (c : tool_call) (s : state) :
  length (todos (snd (handle c s)))
  = (length (todos s) + count_add_todo [c])%nat
  /\ nextId (snd (handle c s)) = nextId s + N.of_nat (count_add_todo [c]).
Proof.
  destruct c as [title_|id_|]; cbn [handle count_add_todo].
  - cbn [add_todo snd todos nextId]. rewrite length_app. split; simpl; lia.
  - rewrite complete_todo_state. cbn [todos nextId]. rewrite length_map.
    split; simpl; lia.
  - split; simpl; lia.
Qed.

(** Property X1. The state invariant of the tool host: in every state of a
    process lifetime the counter is one more than the number of todos, the
    identifiers in the collection are todo-1, todo-2, ... in order of
    insertion, and no two items share an identifier. *)
Theorem reachable_state_numbered (s : state) :
  reachable s ->
  nextId s = N.of_nat (length (todos s)) + 1
  /\ map id (todos s)
     = map (fun i => todo_id (N.of_nat i)) (seq 1 (length (todos s)))
  /\ NoDup (map id (todos s)).
Proof.
  intros H. apply reachable_well_numbered in H.
  assert (Hnd := well_numbered_NoDup _ H). destruct H as [Hids Hnext].
  split; [rewrite Hnext; lia|]. split; assumption.
Qed.

Lemma reachable_state_numbered_witness :
  let s := run [AddTodo (lit "a"); CompleteTodo (lit "todo-1");
                AddTodo (lit "b")] initial in
  reachable s
  /\ nextId s = N.of_nat (length (todos s)) + 1
  /\ map id (todos s)
     = map (fun i => todo_id (N.of_nat i)) (seq 1 (length (todos s)))
  /\ NoDup (map id (todos s)).
Proof.
  assert (H : reachable
                (run [AddTodo (lit "a"); CompleteTodo (lit "todo-1");
                      AddTodo (lit "b")] initial))
    by exact (run_reachable _ _ reachable_initial).
  split; [exact H|]. exact (reachable_state_numbered _ H).
Defined.

(** Property X2. Along any sequence of calls, from any state that the
    process can be in, the collection grows by exactly the number of
    [add_todo] calls and so does the counter: nothing is ever removed, and
    only [add_todo] adds. *)
Theorem run_grows_by_adds (cs : list tool_call) (s : state) :
  reachable s ->
  length (todos (run cs s)) = (length (todos s) + count_add_todo cs)%nat
  /\ nextId (run cs s) = nextId s + N.of_nat (count_add_todo cs).
Proof.
  intros _. revert s; induction cs as [|c cs IH]; intros s; cbn [run].
  - simpl. split; lia.
  - destruct (IH (snd (handle c s))) as [-> ->].
    destruct (length_todos_handle c s) as [-> ->].
    destruct c; cbn [count_add_todo]; split; lia.
Qed.

Lemma run_grows_by_adds_witness :
  let s := snd (add_todo (lit "Buy milk") initial) in
  let cs := [AddTodo (lit "a"); CompleteTodo (lit "todo-1"); ListTodos;
             AddTodo (lit "b")] in
  reachable s
  /\ length (todos (run cs s)) = (length (todos s) + count_add_todo cs)%nat
  /\ nextId (run cs s) = nextId s + N.of_nat (count_add_todo cs).
Proof.
  assert (H : reachable (snd (add_todo (lit "Buy milk") initial)))
    by exact (reachable_handle (AddTodo (lit "Buy milk")) initial
                reachable_initial).
  split; [exact H|].
  exact (run_grows_by_adds
           [AddTodo (lit "a"); CompleteTodo (lit "todo-1"); ListTodos;
            AddTodo (lit "b")] _ H).
Defined.

(** Property X3. Along any sequence of calls an item stays at its place with
    the identifier and the title it has, and once completed it stays
    completed. *)
Theorem run_keeps_items (cs : list tool_call) (s : state) (i : nat)
  (t : todo) :
  nth_error (todos s) i = Some t ->
  exists t', nth_error (todos (run cs s)) i = Some t'
             /\ id t' = id t /\ title t' = title t
             /\ (completed t = true -> completed t' = true).
Proof.
  revert s t; induction cs as [|c cs IH]; intros s t H; cbn [run].
  - exists t. auto.
  - destruct (handle_keeps_item c s i t H) as (t1 & H1 & Hid & Htitle & Hc).
    destruct (IH _ _ H1) as (t2 & H2 & Hid2 & Htitle2 & Hc2).
    exists t2. repeat split; try congruence. auto.
Qed.

Lemma run_keeps_items_witness :
  let s := snd (add_todo (lit "Buy milk") initial) in
  let t := {| id := lit "todo-1"; title := lit "Buy milk";
              completed := false |} in
  let cs := [AddTodo (lit "b"); CompleteTodo (lit "todo-1"); ListTodos] in
  nth_error (todos s) 0 = Some t
  /\ exists t', nth_error (todos (run cs s)) 0 = Some t'
                /\ id t' = id t /\ title t' = title t
                /\ (completed t = true -> completed t' = true).
Proof.
  split; [reflexivity|].
  exact (run_keeps_items
           [AddTodo (lit "b"); CompleteTodo (lit "todo-1"); ListTodos]
           (snd (add_todo (lit "Buy milk") initial)) 0
           {| id := lit "todo-1"; title := lit "Buy milk";
              completed := false |} eq_refl).
Defined.

(** Property X4. Two [complete_todo] calls leave the same state in either
    order, whatever the two identifiers and the state. *)
Theorem complete_todo_commutes (a b : jsstring) (s : state) :
  snd (complete_todo a (snd (complete_todo b s)))
  = snd (complete_todo b (snd (complete_todo a s))).
Proof.
  rewrite !complete_todo_state. cbn [todos nextId]. f_equal.
  rewrite !map_map. apply map_ext, mark_comm.
Qed.


(** Property X6. Completing an item that is already completed changes
    nothing in the state, and the call still answers with the confirmation
    for that item. *)
Theorem complete_todo_again (s : state) (i : nat) (t : todo) :
  reachable s ->
  nth_error (todos s) i = Some t ->
  completed t = true ->
  snd (complete_todo (id t) s) = s
  /\ exists data,
       content (fst (complete_todo (id t) s)) =
         [ {| type := lit "text";
              text := lit "Completed " ++ dquote ++ title t ++ dquote
                        ++ lit "." |};
           data ].
Proof.
  intros Hs Hi Hc.
  assert (Hnd : NoDup (map id (todos s)))
    by now apply well_numbered_NoDup, reachable_well_numbered.
  assert (Hfind := find_by_id _ _ _ Hnd Hi).
  split.
  - rewrite complete_todo_state. destruct s as [ts n]. cbn [todos nextId] in *.
    f_equal. rewrite <- (map_id ts) at 2. apply map_ext_in. intros u Hu.
    unfold mark. destruct (strict_eq (id u) (id t)) eqn:E; [|reflexivity].
    apply strict_eq_true in E.
    destruct (In_nth_error _ _ Hu) as [j Hj].
    assert (j = i).
    { apply (proj1 (NoDup_nth_error _) Hnd).
      - rewrite length_map. apply nth_error_Some. congruence.
      - rewrite !nth_error_map, Hi, Hj. cbn. now rewrite E. }
    subst j. assert (u = t) by congruence. subst u.
    destruct t as [ti tt tc]. cbn in *. now subst tc.
  - unfold complete_todo. rewrite Hfind. eexists. reflexivity.
Qed.

Lemma complete_todo_again_witness :
  let s := run [AddTodo (lit "Buy milk"); CompleteTodo (lit "todo-1")]
               initial in
  let t := {| id := lit "todo-1"; title := lit "Buy milk";
              completed := true |} in
  reachable s
  /\ nth_error (todos s) 0 = Some t
  /\ completed t = true
  /\ snd (complete_todo (id t) s) = s
  /\ exists data,
       content (fst (complete_todo (id t) s)) =
         [ {| type := lit "text";
              text := lit "Completed " ++ dquote ++ title t ++ dquote
                        ++ lit "." |};
           data ].
Proof.
  assert (H : reachable
                (run [AddTodo (lit "Buy milk"); CompleteTodo (lit "todo-1")]
                     initial))
    by exact (run_reachable _ _ reachable_initial).
  split; [exact H|]. split; [reflexivity|]. split; [reflexivity|].
  exact (complete_todo_again _ 0
           {| id := lit "todo-1"; title := lit "Buy milk";
              completed := true |} H eq_refl eq_refl).
Defined.

Lemma run_completed_from (cs : list tool_call) :
  forall (s : state) (i : nat) (t : todo),
    nth_error (todos (run cs s)) i = Some t ->
    completed t = true ->
    (exists t0, nth_error (todos s) i = Some t0 /\ completed t0 = true)
    \/ In (CompleteTodo (id t)) cs.
Proof.
  induction cs as [|c cs IH]; intros s i t Hi Hc; cbn [run] in Hi.
  - left. now exists t.
  - destruct (IH _ _ _ Hi Hc) as [(t1 & H1 & Hc1)|Hin];
      [|right; now right].
    assert (Hid : id t = id t1).
    { destruct (run_keeps_item cs _ _ _ H1) as (t' & Ht' & Hid & _).
      congruence. }
    destruct c as [title_|id_|]; cbn [handle] in H1.
    + cbn [add_todo snd todos] in H1.
      destruct (Nat.lt_ge_cases i (length (todos s))) as [Hlt|Hge].
      * rewrite nth_error_app1 in H1 by exact Hlt. left. now exists t1.
      * rewrite nth_error_app2 in H1 by exact Hge.
        destruct (i - length (todos s))%nat as [|k]; cbn in H1.
        -- injection H1 as <-. discriminate Hc1.
        -- now destruct k.
    + rewrite complete_todo_state in H1. cbn [todos] in H1.
      rewrite nth_error_map in H1.
      destruct (nth_error (todos s) i) as [t0|] eqn:H0; [|discriminate].
      injection H1 as <-. rewrite completed_mark in Hc1.
      rewrite id_mark in Hid.
      apply orb_true_iff in Hc1 as [Hc0|Heq].
      * left. now exists t0.
      * apply strict_eq_true in Heq. right. left. congruence.
    + left. now exists t1.
Qed.

(** Property X7. From the start of the process, an item is completed only if
    a [complete_todo] call with its identifier was made: no other call sets
    the flag. *)
Theorem completed_only_by_call (cs : list tool_call) (t : todo) :
  In t (todos (run cs initial)) ->
  completed t = true ->
  In (CompleteTodo (id t)) cs.
Proof.
  intros Hin Hc. destruct (In_nth_error _ _ Hin) as [i Hi].
  destruct (run_completed_from cs initial i t Hi Hc)
    as [(t0 & H0 & _)|H]; [|exact H].
  cbn in H0. now destruct i.
Qed.

Lemma completed_only_by_call_witness :
  let cs := [AddTodo (lit "Buy milk"); AddTodo (lit "b");
             CompleteTodo (lit "todo-1")] in
  let t := {| id := lit "todo-1"; title := lit "Buy milk";
              completed := true |} in
  In t (todos (run cs initial))
  /\ completed t = true
  /\ In (CompleteTodo (id t)) cs.
Proof.
  assert (Hin : In {| id := lit "todo-1"; title := lit "Buy milk";
                      completed := true |}
                   (todos (run [AddTodo (lit "Buy milk"); AddTodo (lit "b");
                                CompleteTodo (lit "todo-1")] initial)))
    by (left; reflexivity).
  split; [exact Hin|]. split; [reflexivity|].
  exact (completed_only_by_call _ _ Hin eq_refl).
Defined.

(** Property X8. A todo can be completed by the identifier it was given,
    after any calls in between: the call finds it at the place where it was
    added, quotes the title it was added with and leaves it completed. *)
Theorem added_todo_completes_by_id (title_ : jsstring) (cs : list tool_call)
  (s : state) :
  reachable s ->
  let id_ := todo_id (nextId s) in
  let s2 := run cs (snd (add_todo title_ s)) in
  (exists data,
     content (fst (complete_todo id_ s2)) =
       [ {| type := lit "text";
            text := lit "Completed " ++ dquote ++ title_ ++ dquote
                      ++ lit "." |};
         data ])
  /\ nth_error (todos (snd (complete_todo id_ s2))) (length (todos s))
     = Some {| id := id_; title := title_; completed := true |}.
Proof.
  intros Hs id_ s2.
  assert (H1 : nth_error (todos (snd (add_todo title_ s))) (length (todos s))
               = Some {| id := id_; title := title_; completed := false |}).
  { cbn [add_todo snd todos].
    now rewrite nth_error_app2, Nat.sub_diag by lia. }
  destruct (run_keeps_item cs _ _ _ H1) as (t & Ht & Hid & Htitle & _).
  fold s2 in Ht. cbn [id title] in Hid, Htitle.
  assert (Hr : reachable s2)
    by (apply run_reachable; exact (reachable_handle (AddTodo title_) s Hs)).
  assert (Hnd : NoDup (map id (todos s2)))
    by now apply well_numbered_NoDup, reachable_well_numbered.
  assert (Hfind := find_by_id _ _ _ Hnd Ht). rewrite Hid in Hfind.
  split.
  - unfold complete_todo. rewrite Hfind, Htitle. eexists. reflexivity.
  - rewrite complete_todo_state. cbn [todos].
    rewrite nth_error_map, Ht. cbn [option_map]. f_equal.
    unfold mark. now rewrite Hid, strict_eq_refl, Htitle.
Qed.

Lemma added_todo_completes_by_id_witness :
  let s := snd (add_todo (lit "a") initial) in
  let cs := [AddTodo (lit "b"); CompleteTodo (lit "todo-1"); ListTodos] in
  let id_ := todo_id (nextId s) in
  let s2 := run cs (snd (add_todo (lit "Buy milk") s)) in
  reachable s
  /\ (exists data,
        content (fst (complete_todo id_ s2)) =
          [ {| type := lit "text";
               text := lit "Completed " ++ dquote ++ lit "Buy milk" ++ dquote
                         ++ lit "." |};
            data ])
  /\ nth_error (todos (snd (complete_todo id_ s2))) (length (todos s))
     = Some {| id := id_; title := lit "Buy milk"; completed := true |}.
Proof.
  assert (H : reachable (snd (add_todo (lit "a") initial)))
    by exact (reachable_handle (AddTodo (lit "a")) initial reachable_initial).
  split; [exact H|].
  exact (added_todo_completes_by_id (lit "Buy milk")
           [AddTodo (lit "b"); CompleteTodo (lit "todo-1"); ListTodos] _ H).
Defined.

End Sequences.

(** * More on the post-processor and the build *)

Section Build.

(** What the script and the closing tag have to do with each other. *)
Lemma script_facts :
  exists t i,
    dataInjectionScript = 10 :: t
    /\ dataInjectionScript = i ++ [32]
    /\ ~ In 10 closing_body /\ ~ In 32 closing_body.
Proof.
  destruct script_head as [t Ht]. destruct script_last as [i Hi].
  exists t, i. repeat split; try assumption; apply closing_body_chars.
Qed.

(** The result for a page with a closing tag, and where its first closing
    tag stands. *)
Lemma processWidgetHtml_shape (html : jsstring) (n : nat) :
  indexOf html closing_body = Some n ->
  exists pre rest,
    html = pre ++ closing_body ++ rest
    /\ length pre = n
    /\ processWidgetHtml html
       = pre ++ dataInjectionScript ++ closing_body ++ rest
    /\ indexOf (pre ++ dataInjectionScript ++ closing_body ++ rest)
         closing_body
       = Some (n + length dataInjectionScript)%nat.
Proof.
  intros E. destruct script_facts as (t & i & Ht & Hi & H10 & H32).
  destruct (indexOf_Some _ _ _ E) as [Hs Hmin].
  assert (Hn := indexOf_bound _ _ _ E).
  assert (Hlen : length (firstn n html) = n) by (rewrite length_firstn; lia).
  revert Hs Hmin Hlen.
  generalize (firstn n html) (skipn (n + length closing_body) html).
  intros pre rest Hs Hmin Hlen. exists pre, rest.
  split; [exact Hs|]. split; [exact Hlen|]. split.
  - rewrite Hs at 1. apply processWidgetHtml_at. rewrite <- Hs, Hlen. exact E.
  - rewrite <- Hlen.
    apply (indexOf_after_insert _ _ _ _ t i 10 32 Ht Hi H10 H32
             script_without_closing_body).
    intros j Hj. rewrite <- Hs. apply Hmin. lia.
Qed.

Lemma processWidgetHtml_no_tag (html : jsstring) :
  indexOf html closing_body = None ->
  processWidgetHtml html = html ++ dataInjectionScript
  /\ indexOf (html ++ dataInjectionScript) closing_body = None.
Proof.
  intros E. destruct script_facts as (t & i & Ht & _ & H10 & _).
  split; [now apply processWidgetHtml_not_found|].
  exact (indexOf_append_None _ _ _ t 10 Ht H10 script_without_closing_body E).
Qed.

Lemma app_eq_length {A : Type} (a b x y : list A) :
  length a = length b -> a ++ x = b ++ y -> a = b /\ x = y.
Proof.
  revert b; induction a as [|c a IH]; intros [|d b] Hl H;
    try discriminate Hl.
  - now split.
  - injection H as -> H. injection Hl as Hl.
    destruct (IH b Hl H) as [-> ->]. now split.
Qed.

(** Property X9. [processWidgetHtml] neither adds nor removes a closing body
    tag: the result has one exactly when the page has one. With one, the
    first closing tag of the result stands further right by the length of
    the script, and the script is the text that ends right before it. *)
Theorem processWidgetHtml_keeps_closing_tag (html : jsstring) :
  includes (processWidgetHtml html) closing_body
  = includes html closing_body
  /\ (forall n,
        indexOf html closing_body = Some n ->
        indexOf (processWidgetHtml html) closing_body
        = Some (n + length dataInjectionScript)%nat
        /\ skipn n (firstn (n + length dataInjectionScript)
                      (processWidgetHtml html))
           = dataInjectionScript).
Proof.
  split.
  - unfold includes at 2.
    destruct (indexOf html closing_body) as [n|] eqn:E.
    + destruct (processWidgetHtml_shape _ _ E) as (pre & rest & _ & _ & -> & H).
      unfold includes. now rewrite H.
    + destruct (processWidgetHtml_no_tag _ E) as [-> H].
      unfold includes. now rewrite H.
  - intros n E.
    destruct (processWidgetHtml_shape _ _ E)
      as (pre & rest & _ & Hlen & -> & H).
    split; [exact H|]. subst n.
    rewrite app_assoc, <- length_app, firstn_app, firstn_all, Nat.sub_diag.
    cbn [firstn]. rewrite app_nil_r, skipn_app, skipn_all, Nat.sub_diag.
    reflexivity.
Qed.

(** Property X10. The page can be told from the result: two pages with the
    same result are the same page. *)
Theorem processWidgetHtml_injective (h1 h2 : jsstring) :
  processWidgetHtml h1 = processWidgetHtml h2 -> h1 = h2.
Proof.
  intros H.
  destruct (indexOf h1 closing_body) as [n1|] eqn:E1,
           (indexOf h2 closing_body) as [n2|] eqn:E2.
  - destruct (processWidgetHtml_shape _ _ E1)
      as (pre1 & rest1 & -> & Hl1 & Hp1 & Hi1).
    destruct (processWidgetHtml_shape _ _ E2)
      as (pre2 & rest2 & -> & Hl2 & Hp2 & Hi2).
    rewrite Hp1, Hp2 in H. rewrite H in Hi1.
    assert (n1 = n2) by (rewrite Hi1 in Hi2; injection Hi2; lia).
    destruct (app_eq_length pre1 pre2 _ _ ltac:(congruence) H) as [-> Hr].
    apply app_inv_head in Hr. now rewrite Hr.
  - destruct (processWidgetHtml_shape _ _ E1) as (pre & rest & _ & _ & Hp & Hi).
    destruct (processWidgetHtml_no_tag _ E2) as [Hq Hn].
    rewrite <- Hp, H, Hq in Hi. congruence.
  - destruct (processWidgetHtml_shape _ _ E2) as (pre & rest & _ & _ & Hp & Hi).
    destruct (processWidgetHtml_no_tag _ E1) as [Hq Hn].
    rewrite <- Hp, <- H, Hq in Hi. congruence.
  - destruct (processWidgetHtml_no_tag _ E1) as [Hq1 _].
    destruct (processWidgetHtml_no_tag _ E2) as [Hq2 _].
    rewrite Hq1, Hq2 in H. now apply app_inv_tail in H.
Qed.

Lemma processWidgetHtml_injective_witness :
  let h1 := lit "<body>a</body>" in
  let h2 := lit "<body>" ++ lit "a</body>" in
  processWidgetHtml h1 = processWidgetHtml h2 /\ h1 = h2.
Proof.
  assert (H : processWidgetHtml (lit "<body>a</body>")
              = processWidgetHtml (lit "<body>" ++ lit "a</body>"))
    by reflexivity.
  split; [exact H|]. exact (processWidgetHtml_injective _ _ H).
Defined.



(** The build by cases: where it stops, and what it leaves. *)
Lemma buildWidget_cases (server : fetch_outcome) (fs : file_system)
  (d : disk) :
  (buildWidget server fs d = (d, 1)
   /\ (server = fetch_rejected
       \/ (exists r, server = fetch_resolved r
                     /\ (ok r = false \/ body r = None))
       \/ (outputDir_exists d = false /\ mkdirSync_succeeds fs = false)))
  \/ exists r html,
       server = fetch_resolved r /\ ok r = true /\ body r = Some html
       /\ (outputDir_exists d = true \/ mkdirSync_succeeds fs = true)
       /\ buildWidget server fs d
          = match writeFileSync_outcome fs with
            | write_done =>
                ({| outputDir_exists := true;
                    output_file := Some (processWidgetHtml html) |}, 0)
            | write_refused =>
                ({| outputDir_exists := true;
                    output_file := output_file d |}, 1)
            | write_cut partial =>
                ({| outputDir_exists := true;
                    output_file := Some partial |}, 1)
            end.
Proof.
  destruct server as [|r]; [left; split; [reflexivity | now left]|].
  cbn [buildWidget].
  destruct (ok r) eqn:Eok; cbn [negb];
    [|left; split; [reflexivity | right; left; exists r; auto]].
  destruct (body r) as [html|] eqn:Eb;
    [|left; split; [reflexivity | right; left; exists r; auto]].
  destruct d as [dir file]. cbn [outputDir_exists output_file].
  destruct dir; cbn [negb andb].
  - right. exists r, html.
    repeat split; auto; destruct (writeFileSync_outcome fs); reflexivity.
  - destruct (mkdirSync_succeeds fs) eqn:Em; cbn [negb].
    + right. exists r, html.
      repeat split; auto; destruct (writeFileSync_outcome fs); reflexivity.
    + left. split; [reflexivity | right; right; auto].
Qed.

(** Property X12. The build exits with code 0 exactly when [fetch]
    resolves to a response that is [ok], the body is read, the output
    directory exists or [mkdirSync] makes it, and [writeFileSync] writes the
    file in full; in every other case it exits with code 1. When the
    failure is in the fetch, the status or the body, the disk is left as it
    was; and whatever fails, the text of a file written by an earlier build
    is kept unless [writeFileSync] failed after truncating it. *)
Theorem buildWidget_exit_code (server : fetch_outcome) (fs : file_system)
  (d : disk) :
  (snd (buildWidget server fs d) = 0 \/ snd (buildWidget server fs d) = 1)
  /\ (snd (buildWidget server fs d) = 0
      <-> exists r html,
            server = fetch_resolved r /\ ok r = true /\ body r = Some html
            /\ (outputDir_exists d = true \/ mkdirSync_succeeds fs = true)
            /\ writeFileSync_outcome fs = write_done)
  /\ (server = fetch_rejected
      \/ (exists r, server = fetch_resolved r
                    /\ (ok r = false \/ body r = None)) ->
      fst (buildWidget server fs d) = d)
  /\ (snd (buildWidget server fs d) = 1 ->
      (forall partial, writeFileSync_outcome fs <> write_cut partial) ->
      output_file (fst (buildWidget server fs d)) = output_file d).
Proof.
  destruct (buildWidget_cases server fs d)
    as [[E Hwhy]|(r & html & -> & Hok & Hb & Hdir & E)]; rewrite E.
  - cbn [fst snd]. split; [now right|]. split; [|split; [reflexivity|]].
    + split; [discriminate|].
      intros (r & html & -> & Hok & Hb & Hdir & _).
      destruct Hwhy as [H|[(r' & [= <-] & [H|H])|[H1 H2]]];
        [discriminate H | congruence | congruence |].
      destruct Hdir; congruence.
    + reflexivity.
  - destruct (writeFileSync_outcome fs) as [| |partial] eqn:Ew;
      cbn [fst snd output_file].
    + split; [now left|]. split; [|split].
      * split; [intros _; exists r, html; auto | reflexivity].
      * intros [H|(r' & [= <-] & [H|H])]; [discriminate H | congruence..].
      * discriminate.
    + split; [now right|]. split; [|split].
      * split; [discriminate | intros (? & ? & _ & _ & _ & _ & H); discriminate H].
      * intros [H|(r' & [= <-] & [H|H])]; [discriminate H | congruence..].
      * reflexivity.
    + split; [now right|]. split; [|split].
      * split; [discriminate | intros (? & ? & _ & _ & _ & _ & H); discriminate H].
      * intros [H|(r' & [= <-] & [H|H])]; [discriminate H | congruence..].
      * intros _ H. now contradiction (H partial).
Qed.

(** Property X13. A build that exits with code 0 leaves the output
    directory in place and the output file holding the page it fetched
    with the script inserted before the first closing body tag, or appended
    when the page has none. What was on disk before plays no part: from any
    other disk, a build that exits with code 0 against the same server and
    file system leaves the same disk. *)
Theorem buildWidget_writes_page (server : fetch_outcome) (fs : file_system)
  (d : disk) :
  snd (buildWidget server fs d) = 0 ->
  (exists r html pre post,
     server = fetch_resolved r /\ ok r = true /\ body r = Some html
     /\ html = pre ++ post
     /\ (post = [] /\ includes html closing_body = false
         \/ exists rest, post = closing_body ++ rest
                         /\ indexOf html closing_body = Some (length pre))
     /\ fst (buildWidget server fs d)
        = {| outputDir_exists := true;
             output_file := Some (pre ++ dataInjectionScript ++ post) |})
  /\ forall d2,
       snd (buildWidget server fs d2) = 0 ->
       fst (buildWidget server fs d2) = fst (buildWidget server fs d).
Proof.
  intros H0.
  assert (Hdone : forall d',
             snd (buildWidget server fs d') = 0 ->
             exists r html,
               server = fetch_resolved r /\ ok r = true /\ body r = Some html
               /\ fst (buildWidget server fs d')
                  = {| outputDir_exists := true;
                       output_file := Some (processWidgetHtml html) |}).
  { intros d' H.
    destruct (buildWidget_cases server fs d')
      as [[E _]|(r & html & -> & Hok & Hb & _ & E)]; rewrite E in H |- *;
      [discriminate H|].
    exists r, html.
    destruct (writeFileSync_outcome fs); try discriminate H. auto. }
  destruct (Hdone d H0) as (r & html & -> & Hok & Hb & Hd). split.
  - exists r, html. rewrite Hd.
    destruct (indexOf html closing_body) as [n|] eqn:E.
    + destruct (processWidgetHtml_shape _ _ E)
        as (pre & rest & Hs & Hl & Hp & _).
      exists pre, (closing_body ++ rest).
      repeat split; try assumption.
      * right. exists rest. split; [reflexivity | now rewrite Hl].
      * now rewrite Hp.
    + exists html, [].
      repeat split; try assumption; [now rewrite app_nil_r | |].
      * left. split; [reflexivity | unfold includes; now rewrite E].
      * rewrite (processWidgetHtml_not_found _ E), app_nil_r. reflexivity.
  - intros d2 H2.
    destruct (Hdone d2 H2) as (r2 & html2 & [= <-] & _ & Hb2 & Hd2).
    rewrite Hd, Hd2. congruence.
Qed.

Lemma buildWidget_writes_page_witness :
  let server :=
    fetch_resolved
      {| ok := true; status := 200; statusText := lit "OK";
         body := Some (lit "<html><body>Todo</body></html>") |} in
  let fs := {| mkdirSync_succeeds := true;
               writeFileSync_outcome := write_done |} in
  let d := {| outputDir_exists := false; output_file := None |} in
  snd (buildWidget server fs d) = 0
  /\ (exists r html pre post,
        server = fetch_resolved r /\ ok r = true /\ body r = Some html
        /\ html = pre ++ post
        /\ (post = [] /\ includes html closing_body = false
            \/ exists rest, post = closing_body ++ rest
                            /\ indexOf html closing_body = Some (length pre))
        /\ fst (buildWidget server fs d)
           = {| outputDir_exists := true;
                output_file := Some (pre ++ dataInjectionScript ++ post) |})
  /\ forall d2,
       snd (buildWidget server fs d2) = 0 ->
       fst (buildWidget server fs d2) = fst (buildWidget server fs d).
Proof.
  split; [reflexivity|].
  exact (buildWidget_writes_page
           (fetch_resolved
              {| ok := true; status := 200; statusText := lit "OK";
                 body := Some (lit "<html><body>Todo</body></html>") |})
           {| mkdirSync_succeeds := true;
              writeFileSync_outcome := write_done |}
           {| outputDir_exists := false; output_file := None |} eq_refl).
Defined.

End Build.

(** * The data block is a single line *)

Section Printable.

Lemma lit_printable (s : string) :
  forallb (fun u => 32 <=? u) (lit s) = true -> printable (lit s).
Proof.
  intros H. apply Forall_forall. intros u Hu.
  apply N.leb_le. revert u Hu. now apply forallb_forall.
Qed.

Lemma hex_digit_printable (d : N) : 32 <= hex_digit d.
Proof. unfold hex_digit. destruct (d <? 10); lia. Qed.

Lemma UnicodeEscape_printable (c : code_unit) : printable (UnicodeEscape c).
Proof.
  unfold UnicodeEscape.
  repeat constructor; try apply hex_digit_printable; lia.
Qed.

Lemma quote_code_unit_printable (c : code_unit) :
  printable (quote_code_unit c).
Proof.
  unfold quote_code_unit.
  repeat match goal with
         | |- context [if ?x =? ?k then _ else _] =>
             destruct (N.eqb_spec x k) as [->|?];
               [first [apply lit_printable; reflexivity
                      | repeat constructor; lia]|]
         end.
  destruct (N.ltb_spec c 32) as [H|H]; cbn [orb].
  - apply UnicodeEscape_printable.
  - destruct (_ || _); [apply UnicodeEscape_printable|].
    now repeat constructor.
Qed.

Lemma quote_code_points_printable (s : jsstring) :
  printable (quote_code_points s).
Proof.
  remember (length s) as n eqn:Hn.
  revert s Hn. induction n as [n IH] using lt_wf_ind. intros s Hn.
  destruct s as [|c s]; [constructor|].
  cbn [quote_code_points].
  destruct (is_leading_surrogate c) eqn:Ec.
  - assert (Hc := leading_surrogate_bounds c Ec).
    destruct s as [|d s]; [apply UnicodeEscape_printable|].
    destruct (is_trailing_surrogate d) eqn:Ed.
    + assert (Hd := trailing_surrogate_bounds d Ed).
      constructor; [lia|]. constructor; [lia|].
      apply (IH (length s)); [simpl in Hn; lia | reflexivity].
    + apply Forall_app. split; [apply UnicodeEscape_printable|].
      apply (IH (length (d :: s))); [simpl in *; lia | reflexivity].
  - apply Forall_app. split; [apply quote_code_unit_printable|].
    apply (IH (length s)); [simpl in Hn; lia | reflexivity].
Qed.

Ltac printable_parts :=
  first [ apply quote_code_points_printable
        | apply lit_printable; reflexivity
        | apply Forall_app; split; printable_parts
        | repeat constructor; lia ].

Lemma stringify_todo_printable (t : todo) : printable (stringify_todo t).
Proof.
  rewrite stringify_todo_eq. unfold QuoteJSONString, dquote.
  destruct (completed t); cbn [SerializeJSONBoolean]; printable_parts.
Qed.

Lemma join_printable (sep : jsstring) (parts : list jsstring) :
  printable sep -> Forall printable parts -> printable (join sep parts).
Proof.
  intros Hsep. induction parts as [|x [|y parts] IH]; intros H.
  - constructor.
  - now inversion H.
  - rewrite join_cons2. inversion H; subst.
    apply Forall_app. split; [assumption|].
    apply Forall_app. split; [assumption|]. now apply IH.
Qed.

Lemma JSON_stringify_printable (ts : list todo) :
  printable (JSON_stringify {| tasks := ts |}).
Proof.
  rewrite JSON_stringify_eq. unfold QuoteJSONString, dquote.
  apply Forall_app. split; [printable_parts|].
  apply Forall_app. split; [|printable_parts].
  apply join_printable; [printable_parts|].
  apply Forall_forall. intros x Hx.
  apply in_map_iff in Hx as (t & <- & _). apply stringify_todo_printable.
Qed.

(** Property X14. Whatever the titles and identifiers hold, the data block
    of every result has no control character in it (no line break, no tab):
    those of the titles are written as escapes. *)
Theorem data_block_has_no_control_character (c : tool_call) (s : state) :
  exists first data,
    content (fst (handle c s)) = [first; data]
    /\ Forall (fun u => 32 <= u) (text data).
Proof.
  destruct (handle_carries c s) as ((first & Hc & _) & _).
  eexists first, _. split; [exact Hc|]. cbn [text].
  apply Forall_app. split; [printable_parts|].
  apply Forall_app. split; [apply JSON_stringify_printable|printable_parts].
Qed.

End Printable.
